(** * youtube-tool frontend: the search controller and the match renderer

    A shallow embedding of the logic of [src/App.jsx] (search / load-more
    state machine), [src/components/SearchForm.jsx] (submit guard) and
    [src/components/VideoCard.jsx] (view-count formatting and keyword
    highlighting), followed by the properties proved about it.  Line
    numbers in the comments are those of these three files.

    Conventions.
    - A JavaScript string is a [string]: one [ascii] per UTF-16 code unit,
      so the embedding covers the strings whose code units are below 256
      (the Latin-1 range).  On that range [trim], [toLowerCase] and the
      case folding of the [i] flag are written out exactly.
    - [null] / [undefined] is [None]; a string value is [Some s].
      JavaScript truthiness of such a value is [truthy].
    - A React state hook [const [x, setX] = useState(..)] is a field [x]
      of [State] with a setter [setX : _ -> State -> State].
    - An [async] handler is split at its [await]: the part before it runs
      when the handler is called, the part after it when the fetch
      settles.  The suspended part is a [Pending] value which keeps what
      the closure captured.  A handler is called from the latest render,
      so it reads the current [State]; the setters called in one run of
      a handler take effect together. *)

From Stdlib Require Import List String Ascii Bool Arith ZArith NArith Lia.
From Stdlib Require Import DecimalString Floats.SpecFloat.
Import ListNotations.
Local Open Scope string_scope.
Local Open Scope list_scope.

(* ------------------------------------------------------------------ *)
(** ** JavaScript strings *)

Module JS.

(** [WhiteSpace] and [LineTerminator] code units below 256, the ones
    [String.prototype.trim] strips: TAB, LF, VT, FF, CR, SP, NBSP. *)
Definition isWhiteSpace (c : ascii) : bool :=
  let n := N_of_ascii c in
  ((9 <=? n) && (n <=? 13) || (n =? 32) || (n =? 160))%N.

Fixpoint trimStart (s : string) : string :=
  match s with
  | EmptyString => EmptyString
  | String c s' => if isWhiteSpace c then trimStart s' else s
  end.

Fixpoint trimEnd (s : string) : string :=
  match s with
  | EmptyString => EmptyString
  | String c s' =>
      match trimEnd s' with
      | EmptyString => if isWhiteSpace c then EmptyString else String c EmptyString
      | t => String c t
      end
  end.

Definition trim (s : string) : string := trimEnd (trimStart s).

(** Truthiness of a string: every string but the empty one. *)
Definition truthyStr (s : string) : bool :=
  match s with EmptyString => false | _ => true end.

(** Truthiness of a value that is a string, [null] or [undefined]. *)
Definition truthy (v : option string) : bool :=
  match v with Some s => truthyStr s | None => false end.

(** [String.prototype.toLowerCase] on code units below 256: A-Z and the
    Latin-1 capitals U+00C0..U+00DE (U+00D7, the multiplication sign,
    apart) move up by 32. *)
Definition lowerChar (c : ascii) : ascii :=
  let n := N_of_ascii c in
  if ((65 <=? n) && (n <=? 90) ||
      (192 <=? n) && (n <=? 222) && negb (n =? 215))%N
  then ascii_of_N (n + 32) else c.

Fixpoint toLowerCase (s : string) : string :=
  match s with
  | EmptyString => EmptyString
  | String c s' => String (lowerChar c) (toLowerCase s')
  end.

(** [Canonicalize] of the [i] flag without the [u] flag: the upper case
    of a code unit when that is a single code unit, as its code.  Below
    256: a-z and U+00E0..U+00FE (U+00F7, the division sign, apart) move
    down by 32; U+00B5 goes to U+039C and U+00FF to U+0178; the upper
    case of U+00DF is two code units, so it stays. *)
Definition canonicalize (c : ascii) : N :=
  let n := N_of_ascii c in
  if ((97 <=? n) && (n <=? 122) ||
      (224 <=? n) && (n <=? 254) && negb (n =? 247))%N
  then (n - 32)%N
  else if (n =? 181)%N then 924%N
  else if (n =? 255)%N then 376%N
  else n.

(** [LineTerminator] code units below 256: LF and CR. *)
Definition isLineTerminator (c : ascii) : bool :=
  let n := N_of_ascii c in ((n =? 10) || (n =? 13))%N.

(** [Number::toString] of an integer below 10^21, in base 10. *)
Definition numberToString (n : Z) : string :=
  NilZero.string_of_int (Z.to_int n).

End JS.

(* ------------------------------------------------------------------ *)
(** ** App.jsx: the search controller *)

Module App.

Record Filters := mkFilters {
  minDate : string;
  maxDate : string;
  minViews : string;
  channelName : string
}.

(** One entry of [data.videos], with the fields [VideoCard] reads. *)
Record Video := mkVideo {
  id : string;
  title : string;
  description : string;
  channel_title : string;
  published_at : string;
  view_count : Z;
  thumbnail : string;
  match_type : list string;
  transcript_matches : list string
}.

(** The body of a successful response, [await response.json()]. *)
Record SearchData := mkData {
  videos : list Video;
  next_page_token : option string;
  total_results : Z
}.

(** The hooks of [App]. *)
Record State := mkState {
  keyword : string;
  results : list Video;
  loading : bool;
  error : option string;
  nextPageToken : option string;
  totalResults : Z;
  filters : Filters
}.

Definition setKeyword (v : string) (s : State) : State :=
  mkState v (results s) (loading s) (error s) (nextPageToken s) (totalResults s) (filters s).
Definition setResults (v : list Video) (s : State) : State :=
  mkState (keyword s) v (loading s) (error s) (nextPageToken s) (totalResults s) (filters s).
Definition setLoading (v : bool) (s : State) : State :=
  mkState (keyword s) (results s) v (error s) (nextPageToken s) (totalResults s) (filters s).
Definition setError (v : option string) (s : State) : State :=
  mkState (keyword s) (results s) (loading s) v (nextPageToken s) (totalResults s) (filters s).
Definition setNextPageToken (v : option string) (s : State) : State :=
  mkState (keyword s) (results s) (loading s) (error s) v (totalResults s) (filters s).
Definition setTotalResults (v : Z) (s : State) : State :=
  mkState (keyword s) (results s) (loading s) (error s) (nextPageToken s) v (filters s).
Definition setFilters (v : Filters) (s : State) : State :=
  mkState (keyword s) (results s) (loading s) (error s) (nextPageToken s) (totalResults s) v.

(** The state of the first render: the arguments of the [useState] calls. *)
Definition initialState : State :=
  mkState "" [] false None None 0%Z (mkFilters "" "" "" "").

(** A [URLSearchParams] object: the appended pairs, in order.  The fetch
    goes to ["/api/search?"] followed by their serialisation. *)
Definition Params := list (string * string).

(** [if (v) params.append(name, v)] *)
Definition appendIf (name v : string) (p : Params) : Params :=
  if JS.truthyStr v then p ++ [(name, v)] else p.

Definition filterParams (f : Filters) (p : Params) : Params :=
  appendIf "channel_name" (channelName f)
    (appendIf "min_views" (minViews f)
      (appendIf "max_date" (maxDate f)
        (appendIf "min_date" (minDate f) p))).

(** Lines 35-41. *)
Definition searchParams (searchKeyword : string) (searchFilters : Filters) : Params :=
  filterParams searchFilters [("keyword", searchKeyword)].

(** Lines 66-73.  [page_token] is the token the closure sees; the guard
    of line 61 has made sure that it is a non-empty string. *)
Definition moreParams (s : State) : Params :=
  filterParams (filters s)
    [("keyword", keyword s);
     ("page_token", match nextPageToken s with Some t => t | None => "" end)].

(** How a fetch settles, as the code after [await] sees it. *)
Inductive FetchResult :=
| FetchOk (data : SearchData)          (* response.ok, body parsed *)
| FetchNotOk (statusText : string)     (* !response.ok *)
| FetchRejected (message : string).    (* fetch or response.json() rejected *)

(** [err.message] in the [catch] clause; [None] when nothing is thrown. *)
Definition thrown (r : FetchResult) : option string :=
  match r with
  | FetchOk _ => None
  | FetchNotOk statusText => Some ("Error: " ++ statusText)%string
  | FetchRejected message => Some message
  end.

(** A handler suspended at [await fetch(..)].  [loadMore] refers to
    [results] after the await (line 82): that is the array of the render
    in which the handler was called, kept here. *)
Inductive Pending :=
| AwaitSearch (request : Params)
| AwaitMore (request : Params) (closureResults : list Video).

(** The component together with the fetches in flight, oldest first. *)
Record World := mkWorld {
  ui : State;
  inflight : list Pending
}.

Definition initialWorld : World := mkWorld initialState [].

(** [handleSearch], lines 24-43: up to the [await]. *)
Definition handleSearch (searchKeyword : string) (searchFilters : Filters)
    (w : World) : World :=
  if negb (JS.truthyStr (JS.trim searchKeyword)) then w
  else
    mkWorld
      (setNextPageToken None
        (setResults []
          (setError None
            (setLoading true
              (setFilters searchFilters
                (setKeyword searchKeyword (ui w)))))))
      (inflight w ++ [AwaitSearch (searchParams searchKeyword searchFilters)]).

(** [loadMore], lines 60-75: up to the [await]. *)
Definition loadMore (w : World) : World :=
  if negb (JS.truthy (nextPageToken (ui w))) || loading (ui w) then w
  else
    mkWorld
      (setLoading true (ui w))
      (inflight w ++ [AwaitMore (moreParams (ui w)) (results (ui w))]).

(** [handleSearch], lines 45-57: after the [await]. *)
Definition handleSearchResume (r : FetchResult) (s : State) : State :=
  setLoading false
    match r with
    | FetchOk data =>
        setTotalResults (total_results data)
          (setNextPageToken (next_page_token data)
            (setResults (videos data) s))
    | _ => setError (thrown r) s
    end.

(** [loadMore], lines 77-88: after the [await]. *)
Definition loadMoreResume (closureResults : list Video) (r : FetchResult)
    (s : State) : State :=
  setLoading false
    match r with
    | FetchOk data =>
        setNextPageToken (next_page_token data)
          (setResults (closureResults ++ videos data) s)
    | _ => setError (thrown r) s
    end.

Definition resume (p : Pending) (r : FetchResult) (s : State) : State :=
  match p with
  | AwaitSearch _ => handleSearchResume r s
  | AwaitMore _ closureResults => loadMoreResume closureResults r s
  end.

Fixpoint removeNth {A} (i : nat) (l : list A) : list A :=
  match l, i with
  | [], _ => []
  | _ :: l', O => l'
  | x :: l', S i' => x :: removeNth i' l'
  end.

(** The [i]-th fetch in flight settles with [r]. *)
Definition settle (i : nat) (r : FetchResult) (w : World) : World :=
  match nth_error (inflight w) i with
  | None => w
  | Some p => mkWorld (resume p r (ui w)) (removeNth i (inflight w))
  end.

(** What can happen to the component. *)
Inductive Event :=
| EvSearch (searchKeyword : string) (searchFilters : Filters)
| EvLoadMore
| EvSettle (i : nat) (r : FetchResult).

Definition step (w : World) (e : Event) : World :=
  match e with
  | EvSearch k f => handleSearch k f w
  | EvLoadMore => loadMore w
  | EvSettle i r => settle i r w
  end.

Definition run (w : World) (es : list Event) : World := fold_left step es w.

End App.

(* ------------------------------------------------------------------ *)
(** ** SearchForm.jsx *)

Module SearchForm.

Record Form := mkForm {
  keyword : string;
  minDate : string;
  maxDate : string;
  minViews : string;
  channelName : string
}.

(** [handleSubmit], lines 11-24, with [onSearch = handleSearch]. *)
Definition handleSubmit (form : Form) (w : App.World) : App.World :=
  if negb (JS.truthyStr (JS.trim (keyword form))) then w
  else
    App.handleSearch (keyword form)
      (App.mkFilters (minDate form) (maxDate form) (minViews form) (channelName form))
      w.

End SearchForm.

(* ------------------------------------------------------------------ *)
(** ** Numbers: binary64 division and [toFixed(1)] *)

Module Float64.

Local Open Scope Z_scope.

(** A positive finite double, [mant * 2 ^ expo]. *)
Record t := mk { mant : Z; expo : Z }.

(** [a / b] rounded to the nearest integer, ties to the even one. *)
Definition roundNearestEven (a b : Z) : Z :=
  let q := a / b in
  let r := a mod b in
  if 2 * r <? b then q
  else if b <? 2 * r then q + 1
  else if Z.even q then q else q + 1.

(** [n / (d * 2 ^ e)] rounded to the nearest integer, ties to even. *)
Definition scaled (n d e : Z) : Z :=
  if e <? 0 then roundNearestEven (n * 2 ^ (- e)) d
  else roundNearestEven n (d * 2 ^ e).

(** [n / d] for two positive integers that are doubles (quotients of
    integers below 2^53 neither overflow nor are subnormal): the exact
    quotient lies in [2^(k-1), 2^(k+1)) for [k = log2 n - log2 d]; the
    exponent is the one that leaves a 53-bit significand, and the
    significand is the quotient rounded to nearest, ties to even.
    ([divide_agrees_with_SFdiv] below: this is the division of the
    Standard Library's specification of binary64.) *)
Definition divide (n d : Z) : t :=
  let k := Z.log2 n - Z.log2 d in
  let atLeast := if k <? 0 then d <=? n * 2 ^ (- k) else d * 2 ^ k <=? n in
  let e := if atLeast then k - 52 else k - 53 in
  mk (scaled n d e) e.

(** The integer [k] of [Number.prototype.toFixed(1)]: the one for which
    [k / 10 - x] is closest to zero, the larger one of two, that is
    [floor (10 * x + 1/2)], on the exact value of the double. *)
Definition tenths (x : t) : Z :=
  if expo x <? 0 then (20 * mant x + 2 ^ (- expo x)) / 2 ^ (1 - expo x)
  else 10 * mant x * 2 ^ expo x.

(** The digits of [toFixed(1)] for [k] tenths: all but the last digit,
    a point, the last digit. *)
Definition fixed1 (k : Z) : string :=
  (JS.numberToString (k / 10) ++ "." ++ JS.numberToString (k mod 10))%string.

Definition toFixed1 (x : t) : string := fixed1 (tenths x).

(** The same quotient through the Standard Library's specification of
    IEEE 754 arithmetic, to compare [divide] with. *)
Definition divideSpec (n d : Z) : spec_float :=
  SFdiv 53 1024 (S754_finite false (Z.to_pos n) 0) (S754_finite false (Z.to_pos d) 0).

Definition ofSpec (x : spec_float) : option t :=
  match x with
  | S754_finite false m e => Some (mk (Zpos m) e)
  | _ => None
  end.

(** What [binary_round_aux] of the specification makes of a rounded
    significand [m] between [2 ^ 52] and [2 ^ 53]: it stays, or, when
    it is [2 ^ 53], it is renormalised. *)
Definition finite53 (m e : Z) : spec_float :=
  if m <? 2 ^ 53 then S754_finite false (Z.to_pos m) e
  else S754_finite false (Z.to_pos (2 ^ 52)) (e + 1).

(** Equal values: the significands agree once brought to one exponent. *)
Definition sameValue (a : t) (b : option t) : bool :=
  match b with
  | Some b =>
      let e := Z.min (expo a) (expo b) in
      mant a * 2 ^ (expo a - e) =? mant b * 2 ^ (expo b - e)
  | None => false
  end.

End Float64.

(* ------------------------------------------------------------------ *)
(** ** Regular expressions: [new RegExp(source, "gi")] and [split]

    The part of the pattern language modelled: pattern characters, [.],
    [^], [$], [|], capturing groups, [(?: )] groups and the quantifiers
    [*], [+], [?] with their lazy forms.  A source that uses anything
    else (a backslash, a bracket, a brace, another [(?] group) is
    [NotModelled].  Matching follows the continuation-passing matchers
    of the language specification. *)

Module RegExp.

Inductive Quantifier := Star | Plus | Opt.

Inductive Node :=
| Empty
| Char (ch : ascii)
| Dot
| AssertStart
| AssertEnd
| Seq (a b : Node)
| Alt (a b : Node)
| Group (i : nat) (a : Node)
| NonCapture (a : Node)
| Repeat (q : Quantifier) (greedy : bool) (a : Node).

Inductive Parsed :=
| Ok (pattern : Node) (nCaptures : nat)
| SyntaxError
| NotModelled.

Inductive GroupKind := Capturing (i : nat) | NonCapturing.

(** An open group: its kind, and the alternatives and terms read so far
    of the disjunction around it (both latest first). *)
Definition Open := (GroupKind * list Node * list Node)%type.

Fixpoint seqOf (terms : list Node) : Node :=
  match terms with
  | [] => Empty
  | t :: terms' => Seq t (seqOf terms')
  end.

Fixpoint altOf (first : Node) (others : list Node) : Node :=
  match others with
  | [] => first
  | a :: others' => Alt first (altOf a others')
  end.

(** The disjunction whose earlier alternatives are [alts] and whose
    last alternative has the terms [terms] (both latest first). *)
Definition disjunction (alts terms : list Node) : Node :=
  match rev (seqOf (rev terms) :: alts) with
  | [] => Empty
  | a :: others => altOf a others
  end.

Definition quantifierOf (c : ascii) : option Quantifier :=
  if (c =? "*")%char then Some Star
  else if (c =? "+")%char then Some Plus
  else if (c =? "?")%char then Some Opt
  else None.

(** A quantifier needs an atom before it: not an assertion, not a term
    that is quantified already. *)
Definition quantifiable (t : Node) : bool :=
  match t with
  | AssertStart | AssertEnd | Repeat _ _ _ => false
  | _ => true
  end.

Definition notModelledChar (c : ascii) : bool :=
  ((c =? "\")%char || (c =? "[")%char || (c =? "]")%char ||
   (c =? "{")%char || (c =? "}")%char).

Fixpoint parseFrom (input : list ascii) (stack : list Open)
    (alts terms : list Node) (nGroups : nat) {struct input} : Parsed :=
  match input with
  | [] =>
      match stack with
      | [] => Ok (disjunction alts terms) nGroups
      | _ :: _ => SyntaxError                       (* unterminated group *)
      end
  | c :: rest =>
      if (c =? "(")%char then
        match rest with
        | c1 :: rest1 =>
            if (c1 =? "?")%char then
              match rest1 with
              | c2 :: rest2 =>
                  if (c2 =? ":")%char
                  then parseFrom rest2 ((NonCapturing, alts, terms) :: stack) [] [] nGroups
                  else NotModelled
              | [] => NotModelled
              end
            else parseFrom rest ((Capturing (S nGroups), alts, terms) :: stack) [] [] (S nGroups)
        | [] => parseFrom rest ((Capturing (S nGroups), alts, terms) :: stack) [] [] (S nGroups)
        end
      else if (c =? ")")%char then
        match stack with
        | [] => SyntaxError                         (* unmatched ) *)
        | (kind, outerAlts, outerTerms) :: stack' =>
            let body := disjunction alts terms in
            let atom := match kind with
                        | Capturing i => Group i body
                        | NonCapturing => NonCapture body
                        end in
            parseFrom rest stack' outerAlts (atom :: outerTerms) nGroups
        end
      else if (c =? "|")%char then
        parseFrom rest stack (seqOf (rev terms) :: alts) [] nGroups
      else
        match quantifierOf c with
        | Some q =>
            match terms with
            | [] => SyntaxError                     (* nothing to repeat *)
            | t :: terms' =>
                if quantifiable t then
                  match rest with
                  | c1 :: rest1 =>
                      if (c1 =? "?")%char
                      then parseFrom rest1 stack alts (Repeat q false t :: terms') nGroups
                      else parseFrom rest stack alts (Repeat q true t :: terms') nGroups
                  | [] => parseFrom rest stack alts (Repeat q true t :: terms') nGroups
                  end
                else SyntaxError                    (* nothing to repeat *)
            end
        | None =>
            if notModelledChar c then NotModelled
            else if (c =? ".")%char then parseFrom rest stack alts (Dot :: terms) nGroups
            else if (c =? "^")%char then parseFrom rest stack alts (AssertStart :: terms) nGroups
            else if (c =? "$")%char then parseFrom rest stack alts (AssertEnd :: terms) nGroups
            else parseFrom rest stack alts (Char c :: terms) nGroups
        end
  end.

Definition parse (source : string) : Parsed :=
  parseFrom (list_ascii_of_string source) [] [] [] 0.

(** *** Matching *)

(** The captures: for group [i] (from 1) the entry [i - 1], the start
    and end index of what it matched, or [None] for [undefined]. *)
Definition Captures := list (option (nat * nat)).

(** A match state: the end index and the captures. *)
Definition MatchState := (nat * Captures)%type.
Definition Continuation := MatchState -> option MatchState.
Definition Matcher := MatchState -> Continuation -> option MatchState.

Fixpoint setNth {A} (i : nat) (v : A) (l : list A) : list A :=
  match l, i with
  | [], _ => []
  | _ :: l', O => v :: l'
  | x :: l', S i' => x :: setNth i' v l'
  end.

Fixpoint groupsOf (n : Node) : list nat :=
  match n with
  | Seq a b | Alt a b => groupsOf a ++ groupsOf b
  | Group i a => i :: groupsOf a
  | NonCapture a | Repeat _ _ a => groupsOf a
  | _ => []
  end.

Definition clearCaptures (groups : list nat) (caps : Captures) : Captures :=
  fold_right (fun i cs => setNth (i - 1) None cs) caps groups.

Definition characterMatcher (str : list ascii) (test : ascii -> bool) : Matcher :=
  fun x c =>
    match nth_error str (fst x) with
    | Some ch => if test ch then c (1 + fst x, snd x) else None
    | None => None
    end.

(** One round of [RepeatMatcher] with [min = 0]: the captures of the
    atom are cleared, an iteration that matches the empty string is
    refused, [again] continues after an iteration. *)
Definition repeatStep (m : Matcher) (greedy : bool) (groups : list nat)
    (again : Continuation) : Matcher :=
  fun x c =>
    let xr := (fst x, clearCaptures groups (snd x)) in
    let d := fun y => if (fst y =? fst x)%nat then None else again y in
    if greedy then
      match m xr d with Some z => Some z | None => c x end
    else
      match c x with Some z => Some z | None => m xr d end.

(** [RepeatMatcher] with [min = 0] and no maximum.  Every further round
    starts at a larger end index, so [left], the number of characters
    after the end index of [x], bounds the rounds; with none left no
    iteration can pass [d].  ([repeatStar_left] below: a larger bound
    gives the same answer.) *)
Fixpoint repeatStar (left : nat) (m : Matcher) (greedy : bool)
    (groups : list nat) : Matcher :=
  fun x c =>
    repeatStep m greedy groups
      (match left with
       | O => fun _ => None
       | S left' => fun y => repeatStar left' m greedy groups y c
       end) x c.

Fixpoint matchNode (str : list ascii) (n : Node) : Matcher :=
  match n with
  | Empty => fun x c => c x
  | Char ch =>
      characterMatcher str (fun d => (JS.canonicalize d =? JS.canonicalize ch)%N)
  | Dot => characterMatcher str (fun d => negb (JS.isLineTerminator d))
  | AssertStart => fun x c => if (fst x =? 0)%nat then c x else None
  | AssertEnd => fun x c => if (fst x =? List.length str)%nat then c x else None
  | Seq a b => fun x c => matchNode str a x (fun y => matchNode str b y c)
  | Alt a b =>
      fun x c =>
        match matchNode str a x c with
        | Some z => Some z
        | None => matchNode str b x c
        end
  | Group i a =>
      fun x c =>
        matchNode str a x
          (fun y => c (fst y, setNth (i - 1) (Some (fst x, fst y)) (snd y)))
  | NonCapture a => matchNode str a
  | Repeat Star greedy a =>
      fun x c =>
        repeatStar (List.length str - fst x) (matchNode str a) greedy (groupsOf a) x c
  | Repeat Plus greedy a =>
      fun x c =>
        matchNode str a (fst x, clearCaptures (groupsOf a) (snd x))
          (fun y =>
             repeatStar (List.length str - fst y) (matchNode str a) greedy (groupsOf a) y c)
  | Repeat Opt greedy a =>
      fun x c => repeatStep (matchNode str a) greedy (groupsOf a) c x c
  end.

(** [exec] of a sticky expression with [lastIndex = q]: a match must
    start at [q]. *)
Definition execAt (pattern : Node) (nCaptures : nat) (str : list ascii) (q : nat)
    : option MatchState :=
  matchNode str pattern (q, repeat None nCaptures) (fun y => Some y).

Definition substring (str : list ascii) (from to : nat) : string :=
  string_of_list_ascii (firstn (to - from) (skipn from str)).

(** The captures as [split] pushes them: a string, or [undefined]. *)
Definition captureStrings (str : list ascii) (caps : Captures) : list (option string) :=
  map (option_map (fun '(a, b) => substring str a b)) caps.

(** The loop of [RegExp.prototype[Symbol.split]]: [p] is the end of the
    last piece, [q] the index tried.  [None] when [fuel] runs out. *)
Fixpoint splitLoop (fuel : nat) (pattern : Node) (nCaptures : nat)
    (str : list ascii) (p q : nat) : option (list (option string)) :=
  match fuel with
  | O => None
  | S fuel' =>
      if (List.length str <=? q)%nat then Some [Some (substring str p (List.length str))]
      else
        match execAt pattern nCaptures str q with
        | None => splitLoop fuel' pattern nCaptures str p (q + 1)
        | Some (lastIndex, caps) =>
            let e := Nat.min lastIndex (List.length str) in
            if (e =? p)%nat then splitLoop fuel' pattern nCaptures str p (q + 1)
            else
              option_map
                (fun rest => Some (substring str p q) :: captureStrings str caps ++ rest)
                (splitLoop fuel' pattern nCaptures str e e)
        end
  end.

(** [str.split(regexp)] with no limit. *)
Definition split (pattern : Node) (nCaptures : nat) (str : list ascii)
    : option (list (option string)) :=
  match str with
  | [] =>
      match execAt pattern nCaptures str 0 with
      | Some _ => Some []
      | None => Some [Some EmptyString]
      end
  | _ :: _ => splitLoop (2 * List.length str + 2) pattern nCaptures str 0 0
  end.

End RegExp.

(* ------------------------------------------------------------------ *)
(** ** VideoCard.jsx *)

Module VideoCard.

(** What a helper hands to JSX: a string or a number. *)
Inductive Value := Str (s : string) | Num (n : Z).

(** The text React renders for it. *)
Definition textOf (v : Value) : string :=
  match v with Str s => s | Num n => JS.numberToString n end.

(** [formatViews], lines 2-9; [count] is an integer. *)
Definition formatViews (count : Z) : Value :=
  if (1000000 <=? count)%Z then
    Str (Float64.toFixed1 (Float64.divide count 1000000) ++ "M")%string
  else if (1000 <=? count)%Z then
    Str (Float64.toFixed1 (Float64.divide count 1000) ++ "K")%string
  else Num count.

(** An element of the array [highlightText] returns: the [span] of
    lines 26-28 or the bare string of line 30. *)
Inductive Segment := Highlighted (part : string) | Plain (part : string).

Definition partOf (g : Segment) : string :=
  match g with Highlighted s | Plain s => s end.


Inductive Outcome :=
| Returned (segments : list Segment)
| ThrewSyntaxError        (* new RegExp(..) *)
| ThrewTypeError          (* undefined.toLowerCase() *)
| PatternNotModelled
| OutOfFuel.

(** The callback of [parts.map], lines 24-32; [map] stops at the first
    call that throws. *)
Fixpoint mapParts (keyword : string) (parts : list (option string)) : Outcome :=
  match parts with
  | [] => Returned []
  | None :: _ => ThrewTypeError
  | Some part :: parts' =>
      match mapParts keyword parts' with
      | Returned segments =>
          Returned
            ((if (JS.toLowerCase part =? JS.toLowerCase keyword)%string
              then Highlighted part else Plain part) :: segments)
      | other => other
      end
  end.

(** [highlightText], lines 20-33.  For a falsy [text] it returns [""],
    which renders as no segment at all. *)
Definition highlightText (text keyword : string) : Outcome :=
  if negb (JS.truthyStr text) then Returned []
  else
    match RegExp.parse ("(" ++ keyword ++ ")")%string with
    | RegExp.SyntaxError => ThrewSyntaxError
    | RegExp.NotModelled => PatternNotModelled
    | RegExp.Ok pattern nCaptures =>
        match RegExp.split pattern nCaptures (list_ascii_of_string text) with
        | None => OutOfFuel
        | Some parts => mapParts keyword parts
        end
    end.

(** The text of the segments, one after the other. *)
Fixpoint joined (segments : list Segment) : string :=
  match segments with
  | [] => EmptyString
  | g :: segments' => (partOf g ++ joined segments')%string
  end.

End VideoCard.

(* ------------------------------------------------------------------ *)
(** ** VideoCard.jsx and App.jsx: what is rendered *)

Module Render.

Import App VideoCard.

(** The [switch] of [getMatchLabel], lines 40-49. *)
Definition labelOf (type : string) : string :=
  if (type =? "title")%string then "Title"
  else if (type =? "description")%string then "Description"
  else if (type =? "transcript")%string then "Transcript"
  else type.

(** [Array.prototype.join] on an array of strings. *)
Fixpoint join (separator : string) (elements : list string) : string :=
  match elements with
  | [] => EmptyString
  | x :: rest =>
      match rest with
      | [] => x
      | _ :: _ => (x ++ separator ++ join separator rest)%string
      end
  end.

(** [getMatchLabel], lines 35-52. *)
Definition getMatchLabel (matchTypes : list string) : string :=
  match matchTypes with
  | [] => EmptyString
  | _ :: _ => join ", " (map labelOf matchTypes)
  end.

(** What stops a render: an exception, or a keyword whose pattern is
    outside the model. *)
Inductive Thrown := SyntaxErrorThrown | TypeErrorThrown | NotModelled | NoFuel.

Definition segmentsOf (o : Outcome) : list Segment + Thrown :=
  match o with
  | Returned segments => inl segments
  | ThrewSyntaxError => inr SyntaxErrorThrown
  | ThrewTypeError => inr TypeErrorThrown
  | PatternNotModelled => inr NotModelled
  | OutOfFuel => inr NoFuel
  end.

(** [video.transcript_matches.map(..)], lines 104-108: one call of
    [highlightText] per mention, in order; the first throw ends it. *)
Fixpoint highlightAll (mentions : list string) (keyword : string)
    : list (list Segment) + Thrown :=
  match mentions with
  | [] => inl []
  | mention :: mentions' =>
      match segmentsOf (highlightText mention keyword) with
      | inr e => inr e
      | inl segments =>
          match highlightAll mentions' keyword with
          | inr e => inr e
          | inl others => inl (segments :: others)
          end
      end
  end.

(** What one card shows, the date apart ([formatDate] goes through
    [Date] and the time zone of the browser and is not modelled; it
    does not throw). *)
Record Card := mkCard {
  href : string;                                   (* lines 57, 75 *)
  viewsText : string;                              (* line 68 *)
  titleSegments : list Segment;                    (* line 80 *)
  foundIn : option string;                         (* lines 88-94 *)
  descriptionSegments : list Segment;              (* line 97 *)
  transcriptMentions : option (list (list Segment)) (* lines 100-111 *)
}.

(** The [return] of [VideoCard], lines 54-114.  The expressions in
    braces are evaluated from top to bottom. *)
Definition card (video : Video) (keyword : string) : Card + Thrown :=
  match segmentsOf (highlightText (title video) keyword) with
  | inr e => inr e
  | inl titleSegs =>
      match segmentsOf (highlightText (description video) keyword) with
      | inr e => inr e
      | inl descriptionSegs =>
          match
            match transcript_matches video with
            | [] => inl None
            | _ :: _ =>
                match highlightAll (transcript_matches video) keyword with
                | inr e => inr e
                | inl mentions => inl (Some mentions)
                end
            end
          with
          | inr e => inr e
          | inl transcript =>
              inl (mkCard
                     ("https://www.youtube.com/watch?v=" ++ id video)%string
                     (textOf (formatViews (view_count video)) ++ " views")%string
                     titleSegs
                     match match_type video with
                     | [] => None
                     | _ :: _ => Some (getMatchLabel (match_type video))
                     end
                     descriptionSegs
                     transcript)
          end
      end
  end.

(** [results.map(..)], lines 117-119: one card per video, in order. *)
Fixpoint cardsOf (results : list Video) (keyword : string) : list Card + Thrown :=
  match results with
  | [] => inl []
  | video :: results' =>
      match card video keyword with
      | inr e => inr e
      | inl c =>
          match cardsOf results' keyword with
          | inr e => inr e
          | inl cs => inl (c :: cs)
          end
      end
  end.

(** What [App] shows below the form. *)
Record View := mkView {
  errorBanner : option string;        (* lines 102-106 *)
  foundLine : option (Z * string);    (* lines 108-114: total and keyword *)
  cards : list Card;                  (* lines 116-120 *)
  spinner : bool;                     (* lines 122-126 *)
  loadMoreButton : bool;              (* lines 128-137 *)
  noResults : option string           (* lines 139-143: the keyword *)
}.

(** The [return] of [App], lines 91-146.  A card that throws takes the
    whole render with it. *)
Definition view (s : State) : View + Thrown :=
  match cardsOf (results s) (keyword s) with
  | inr e => inr e
  | inl cs =>
      inl (mkView
             (if JS.truthy (error s) then error s else None)
             match results s with
             | [] => None
             | _ :: _ => Some (totalResults s, keyword s)
             end
             cs
             (loading s)
             (JS.truthy (nextPageToken s) && negb (loading s))
             match results s with
             | [] =>
                 if negb (loading s) && JS.truthyStr (keyword s)
                 then Some (keyword s) else None
             | _ :: _ => None
             end)
  end.

End Render.

(* ------------------------------------------------------------------ *)
(** ** Vocabulary of the properties *)

Module Props.

Import App.

(** Empty, or white space only. *)
Definition blank (k : string) : bool :=
  forallb JS.isWhiteSpace (list_ascii_of_string k).

(** One successful [loadMore] per page: call, then the page arrives
    for the fetch this call has put in flight, the newest one, which
    stands behind whatever was in flight before the call. *)
Fixpoint loadPages (pages : list SearchData) (w : World) : World :=
  match pages with
  | [] => w
  | p :: pages' =>
      loadPages pages'
        (settle (List.length (inflight w)) (FetchOk p) (loadMore w))
  end.

(** A search session, from any state: a search whose own fetch is
    answered by [first], then one load-more per further page.  Fetches
    that were in flight before stay in flight. *)
Definition session (k : string) (f : Filters) (first : SearchData)
    (pages : list SearchData) (w : World) : World :=
  loadPages pages
    (settle (List.length (inflight w)) (FetchOk first) (handleSearch k f w)).

(** Each page of [pages] is asked for with a usable token: [token]
    lets the first load-more through, and every page but the last
    carries the token for the next one. *)
Fixpoint tokensLead (token : option string) (pages : list SearchData) : Prop :=
  match pages with
  | [] => True
  | p :: pages' =>
      JS.truthy token = true /\ tokensLead (next_page_token p) pages'
  end.

(** The token after [pages]: the one of the last page. *)
Fixpoint lastToken (token : option string) (pages : list SearchData) : option string :=
  match pages with
  | [] => token
  | p :: pages' => lastToken (next_page_token p) pages'
  end.

(** The guard of [loadMore] lets the call through. *)
Definition canLoadMore (s : State) : Prop :=
  JS.truthy (nextPageToken s) = true /\ loading s = false.

(** A fetch that fails: not-ok status or rejection. *)
Definition failed (r : FetchResult) : Prop := thrown r <> None.

(** Every search of [es], run from [w], is issued while no fetch is in
    flight. *)
Fixpoint searchesWhenIdle (w : World) (es : list Event) : bool :=
  match es with
  | [] => true
  | e :: es' =>
      match e, inflight w with
      | EvSearch _ _, _ :: _ => false
      | _, _ => searchesWhenIdle (step w e) es'
      end
  end.

Definition noFilters : Filters := mkFilters "" "" "" "".

(** A search answered by an empty first page with a token, then a
    load-more that fails with status 502. *)
Definition failedLoadMore : list Event :=
  [EvSearch "nike" noFilters;
   EvSettle 0 (FetchOk (mkData [] (Some "t2") 7%Z));
   EvLoadMore;
   EvSettle 0 (FetchNotOk "Bad Gateway")].

Definition sampleVideo : Video :=
  mkVideo "v1" "Nike run" "" "Runners" "2024-01-01T00:00:00Z" 1500%Z "" ["title"] [].

Definition secondPage : SearchData := mkData [sampleVideo] None 7%Z.

(** The view count format in the words of the specification: the
    quotient rounded half-up to one decimal place, or the integer. *)
Definition halfUpTenths (n unit : Z) : Z := ((10 * n + unit / 2) / unit)%Z.

Definition specFormatViewCount (n : Z) : string :=
  if (1000000 <=? n)%Z then (Float64.fixed1 (halfUpTenths n 1000000) ++ "M")%string
  else if (1000 <=? n)%Z then (Float64.fixed1 (halfUpTenths n 1000) ++ "K")%string
  else JS.numberToString n.

(** [n / unit] lies exactly midway between two multiples of a tenth. *)
Definition midway (n unit : Z) : Prop := ((10 * n) mod unit = unit / 2)%Z.

(** A capital letter of the Latin-1 range: A-Z, or U+00C0..U+00DE
    without the multiplication sign. *)
Definition isCapital (c : ascii) : bool :=
  let n := N_of_ascii c in
  ((65 <=? n) && (n <=? 90) ||
   (192 <=? n) && (n <=? 222) && negb (n =? 215))%N.

(** The same character, or a capital letter and its small letter, which
    lies 32 code units above it. *)
Definition sameLetter (c d : ascii) : bool :=
  (c =? d)%char ||
  isCapital c && (N_of_ascii d =? N_of_ascii c + 32)%N ||
  isCapital d && (N_of_ascii c =? N_of_ascii d + 32)%N.

(** Equal up to the case of letters: the same length, and the same
    letter at every index. *)
Fixpoint equalIgnoringCase (a b : string) : bool :=
  match a, b with
  | EmptyString, EmptyString => true
  | String c a', String d b' => sameLetter c d && equalIgnoringCase a' b'
  | _, _ => false
  end.

(** All 256 characters. *)
Definition allAscii : list ascii := map ascii_of_nat (seq 0 256).


(** The invariant of runs without overlapping searches: no fetch in
    flight and [loading] false, or one fetch and [loading] true. *)
Definition oneFetch (w : World) : Prop :=
  (inflight w = [] /\ loading (ui w) = false) \/
  (exists p, inflight w = [p] /\ loading (ui w) = true).

(** [z] is what the continuation [c] answers on some state that lies at
    or after [x], inside the input [str], with as many captures as [x]. *)
Definition reaches (str : list ascii) (c : RegExp.Continuation)
    (x z : RegExp.MatchState) : Prop :=
  exists y : RegExp.MatchState,
    c y = Some z /\ (fst x <= fst y)%nat /\ (fst y <= List.length str)%nat /\
    List.length (snd y) = List.length (snd x).

(** What every matcher does with its continuation. *)
Definition passes (str : list ascii) (m : RegExp.Matcher) : Prop :=
  forall x c z,
    (fst x <= List.length str)%nat -> m x c = Some z -> reaches str c x z.

(** A matcher looks at its continuation only on states at or after its
    start and inside the input. *)
Definition respects (str : list ascii) (m : RegExp.Matcher) : Prop :=
  forall (x : RegExp.MatchState) (c c' : RegExp.Continuation),
    (fst x <= List.length str)%nat ->
    (forall y : RegExp.MatchState,
        (fst x <= fst y)%nat -> (fst y <= List.length str)%nat -> c y = c' y) ->
    m x c = m x c'.


(** The characters with a meaning of their own in a pattern. *)
Definition syntaxCharacter (c : ascii) : bool :=
  ((c =? "^") || (c =? "$") || (c =? "\") || (c =? ".") || (c =? "*") ||
   (c =? "+") || (c =? "?") || (c =? "(") || (c =? ")") || (c =? "[") ||
   (c =? "]") || (c =? "{") || (c =? "}") || (c =? "|"))%char.

(** A keyword of pattern characters only. *)
Definition literal (keyword : string) : bool :=
  forallb (fun c => negb (syntaxCharacter c)) (list_ascii_of_string keyword).

(** A keyword without parentheses that does not begin with [?]. *)
Definition parenFree (keyword : string) : bool :=
  forallb (fun c => negb ((c =? "(") || (c =? ")"))%char)
    (list_ascii_of_string keyword) &&
  match keyword with
  | String c _ => negb (c =? "?")%char
  | EmptyString => true
  end.

End Props.

(* ------------------------------------------------------------------ *)
(** ** Further vocabulary *)

Module MoreProps.

Import App VideoCard Render Props.

(** No search among the events. *)
Definition noSearch (es : list Event) : bool :=
  forallb (fun e => match e with EvSearch _ _ => false | _ => true end) es.

(** The keyword begins with [*] or [+]. *)
Definition leadingQuantifier (keyword : string) : bool :=
  match keyword with
  | String c _ => ((c =? "*") || (c =? "+"))%char
  | EmptyString => false
  end.

(** [word] stands at the head of [text], up to the case of letters. *)
Fixpoint startsWith (word text : list ascii) : bool :=
  match word, text with
  | [], _ => true
  | k :: word', t :: text' => sameLetter t k && startsWith word' text'
  | _ :: _, [] => false
  end.

(** [word] stands somewhere in [text], up to the case of letters. *)
Fixpoint occursIn (word text : list ascii) : bool :=
  startsWith word text ||
  match text with
  | [] => false
  | _ :: text' => occursIn word text'
  end.

(** Segments that mark the occurrences of [keyword]: plain pieces free
    of the keyword, and between two of them a highlighted piece that is
    the keyword up to case. *)
Inductive marked (keyword : string) : list Segment -> Prop :=
| marked_last (s : string) :
    occursIn (list_ascii_of_string keyword) (list_ascii_of_string s) = false ->
    marked keyword [Plain s]
| marked_more (s m : string) (rest : list Segment) :
    occursIn (list_ascii_of_string keyword) (list_ascii_of_string s) = false ->
    equalIgnoringCase m keyword = true ->
    marked keyword rest ->
    marked keyword (Plain s :: Highlighted m :: rest).

(** One of the three match types the card has a label for. *)
Definition knownType (type : string) : bool :=
  ((type =? "title") || (type =? "description") || (type =? "transcript"))%string.

(** The tenths [formatViews] shows for a count from 1000 on: the digits
    before the unit letter. *)
Definition shownTenths (count : Z) : Z :=
  if (1000000 <=? count)%Z then Float64.tenths (Float64.divide count 1000000)
  else Float64.tenths (Float64.divide count 1000).

(** Nothing has been searched yet: the keyword is blank, and so is
    everything a search would have filled in. *)
Definition untouched (w : World) : Prop :=
  results (ui w) = [] /\ nextPageToken (ui w) = None /\ inflight w = [].

(** The segments of a card read the texts of its video again. *)
Definition readsAs (video : Video) (c : Card) : Prop :=
  joined (titleSegments c) = title video /\
  joined (descriptionSegments c) = description video /\
  match transcriptMentions c with
  | Some mentions => map joined mentions = transcript_matches video
  | None => transcript_matches video = []
  end.

(** One of the three labels of [getMatchLabel]. *)
Definition isLabel (s : string) : Prop :=
  s = "Title" \/ s = "Description" \/ s = "Transcript".

End MoreProps.

(* ------------------------------------------------------------------ *)
(** ** The search controller: lemmas *)

Section Controller.

Import App Props.

Lemma nth_error_snoc {A} (l : list A) (x : A) :
  nth_error (l ++ [x]) (List.length l) = Some x.
Proof. induction l; simpl; auto. Qed.

Lemma removeNth_snoc {A} (l : list A) (x : A) :
  removeNth (List.length l) (l ++ [x]) = l.
Proof. induction l; simpl; congruence. Qed.

Lemma trimStart_blank k : blank k = true -> JS.trimStart k = EmptyString.
Proof.
  unfold blank. induction k as [|c k IH]; simpl; auto.
  intros H. apply andb_true_iff in H as [Hc Hk]. rewrite Hc. auto.
Qed.

Lemma trim_blank k : blank k = true -> JS.trim k = EmptyString.
Proof. intros H. unfold JS.trim. rewrite trimStart_blank by exact H. reflexivity. Qed.

(** A call of [loadMore] that passes the guard. *)
Lemma loadMore_passes w :
  canLoadMore (ui w) ->
  loadMore w =
    mkWorld (setLoading true (ui w))
            (inflight w ++ [AwaitMore (moreParams (ui w)) (results (ui w))]).
Proof.
  intros [Ht Hl]. unfold loadMore. rewrite Ht, Hl. reflexivity.
Qed.

(** A call of [handleSearch] with a keyword that is not blank. *)
Lemma handleSearch_passes k f w :
  JS.truthyStr (JS.trim k) = true ->
  handleSearch k f w =
    mkWorld
      (mkState k [] true None None (totalResults (ui w)) f)
      (inflight w ++ [AwaitSearch (searchParams k f)]).
Proof. intros H. unfold handleSearch. rewrite H. reflexivity. Qed.

(** The newest fetch settles. *)
Lemma settle_newest l p r s :
  settle (List.length l) r (mkWorld s (l ++ [p])) = mkWorld (resume p r s) l.
Proof.
  unfold settle. simpl. rewrite nth_error_snoc, removeNth_snoc. reflexivity.
Qed.

Lemma loadPages_results pages : forall w,
  loading (ui w) = false ->
  tokensLead (nextPageToken (ui w)) pages ->
  let w' := loadPages pages w in
  results (ui w') = results (ui w) ++ List.concat (map videos pages) /\
  totalResults (ui w') = totalResults (ui w) /\
  nextPageToken (ui w') = lastToken (nextPageToken (ui w)) pages /\
  loading (ui w') = false /\ inflight w' = inflight w.
Proof.
  induction pages as [|p pages IH]; intros w Hl Htok.
  - simpl. rewrite app_nil_r. auto.
  - destruct Htok as [Ht Htok].
    cbn [loadPages]. rewrite (loadMore_passes w (conj Ht Hl)).
    rewrite settle_newest.
    cbn [resume loadMoreResume].
    match goal with |- context [loadPages pages ?w1] => specialize (IH w1) end.
    cbn in IH. cbn.
    destruct IH as (Hr & Htot & Hn & Hlo & Hi); auto.
    rewrite Hr, Htot, Hn, Hlo, Hi, <- app_assoc.
    repeat split; reflexivity.
Qed.

Lemma trimEnd_cons c s :
  JS.isWhiteSpace c = false -> JS.truthyStr (JS.trimEnd (String c s)) = true.
Proof. intros H. simpl. rewrite H. destruct (JS.trimEnd s); reflexivity. Qed.

(** The guard of [handleSearch] and [handleSubmit] is the test for a
    blank keyword. *)
Lemma trim_truthy k : JS.truthyStr (JS.trim k) = negb (blank k).
Proof.
  unfold JS.trim, blank. induction k as [|c k IH]; [reflexivity|].
  cbn [JS.trimStart list_ascii_of_string forallb].
  destruct (JS.isWhiteSpace c) eqn:Hc; [exact IH|].
  rewrite (trimEnd_cons c k Hc). reflexivity.
Qed.

Lemma oneFetch_step w e :
  oneFetch w ->
  match e, inflight w with EvSearch _ _, _ :: _ => False | _, _ => True end ->
  oneFetch (step w e).
Proof.
  intros Hinv Hok. destruct e as [k f| |i r]; cbn [step].
  - unfold handleSearch. destruct (negb (JS.truthyStr (JS.trim k))); [exact Hinv|].
    destruct (inflight w) eqn:Hin; [|contradiction].
    right. eexists. cbn. split; reflexivity.
  - unfold loadMore.
    destruct (negb (JS.truthy (nextPageToken (ui w))) || loading (ui w)) eqn:Hg;
      [exact Hinv|].
    apply orb_false_iff in Hg as [_ Hl].
    destruct Hinv as [[Hin _]|(p & _ & Hl')]; [|congruence].
    right. eexists. cbn. rewrite Hin. split; reflexivity.
  - unfold settle.
    destruct Hinv as [[Hin Hl]|(p & Hin & Hl)]; rewrite Hin.
    + destruct i; cbn; left; auto.
    + destruct i as [|i]; cbn.
      * left. split; [reflexivity|]. destruct p; reflexivity.
      * destruct i; cbn; right; exists p; auto.
Qed.

Lemma oneFetch_run es : forall w,
  oneFetch w -> searchesWhenIdle w es = true -> oneFetch (run w es).
Proof.
  induction es as [|e es IH]; intros w Hinv Hok; [exact Hinv|].
  cbn [run fold_left]. apply IH.
  - apply oneFetch_step; [exact Hinv|].
    cbn [searchesWhenIdle] in Hok.
    destruct e; auto. destruct (inflight w); [auto|discriminate].
  - cbn [searchesWhenIdle] in Hok.
    destruct e; auto. destruct (inflight w); [auto|discriminate].
Qed.

End Controller.

(* ------------------------------------------------------------------ *)
(** ** The search controller: properties *)

Section ControllerProperties.

Import App Props.

(** C1.  A search session, started in any state: one successful search
    followed by one successful load-more per further page ends with
    [results] equal to the video arrays of all pages one after the
    other, in the order the pages arrived: nothing is dropped, merged
    or moved.  [totalResults] stays the one of the first page,
    [nextPageToken] is the token of the last page, and what was in
    flight before the session still is. *)
Theorem session_results_are_concatenation k f first pages w :
  blank k = false ->
  tokensLead (next_page_token first) pages ->
  let w' := session k f first pages w in
  results (ui w') = List.concat (map videos (first :: pages)) /\
  totalResults (ui w') = total_results first /\
  nextPageToken (ui w') = lastToken (next_page_token first) pages /\
  loading (ui w') = false /\ inflight w' = inflight w.
Proof.
  intros Hk Htok. unfold session.
  rewrite handleSearch_passes by (rewrite trim_truthy, Hk; reflexivity).
  rewrite settle_newest. cbn [resume handleSearchResume].
  match goal with |- context [loadPages pages ?w1] =>
    destruct (loadPages_results pages w1) as (Hr & Ht & Hn & Hl & Hi); auto
  end.
Qed.

Lemma session_results_are_concatenation_witness :
  results (ui (session "nike" noFilters (mkData [sampleVideo] (Some "t2") 7%Z)
                 [secondPage] (handleSearch "adidas" noFilters initialWorld)))
  = [sampleVideo; sampleVideo].
Proof.
  apply (session_results_are_concatenation "nike" noFilters
           (mkData [sampleVideo] (Some "t2") 7%Z) [secondPage]
           (handleSearch "adidas" noFilters initialWorld));
    [reflexivity | simpl; auto].
Defined.

(** The scenario of the specification: a search that fails with status
    500 ends with the error shown, no results and [loading] false. *)
Example search_fails_with_500 :
  ui (run initialWorld
        [EvSearch "Nike" noFilters;
         EvSettle 0 (FetchNotOk "Internal Server Error")]) =
  mkState "Nike" [] false (Some "Error: Internal Server Error") None 0%Z noFilters.
Proof. reflexivity. Qed.

(** C3, as stated, fails: a second search issued while the first is
    still in flight starts a second fetch. *)
Lemma two_fetches_in_flight :
  ~ (forall es, (List.length (inflight (run initialWorld es)) <= 1)%nat).
Proof.
  intros H.
  specialize (H [EvSearch "nike" noFilters; EvSearch "adidas" noFilters]).
  vm_compute in H. lia.
Qed.

(** C3, amended.  In every state reached by searches, load-mores and
    settled fetches in which no search is issued while a fetch is in
    flight, at most one fetch is in flight, and [loading] is true
    exactly while one is; a load-more while [loading] is true is a
    no-op. *)
Theorem one_fetch_without_overlapping_search es :
  searchesWhenIdle initialWorld es = true ->
  let w := run initialWorld es in
  (List.length (inflight w) <= 1)%nat /\
  (loading (ui w) = true <-> inflight w <> []) /\
  (loading (ui w) = true -> loadMore w = w).
Proof.
  intros Hok w.
  assert (Hinv : oneFetch w).
  { apply oneFetch_run; [left; split; reflexivity | exact Hok]. }
  split; [|split].
  - destruct Hinv as [[Hin _]|(p & Hin & _)]; rewrite Hin; simpl; lia.
  - destruct Hinv as [[Hin Hl]|(p & Hin & Hl)]; rewrite Hin, Hl;
      split; congruence.
  - intros Hl. unfold loadMore. rewrite Hl, orb_true_r. reflexivity.
Qed.

Lemma one_fetch_without_overlapping_search_witness :
  (List.length (inflight (run initialWorld
     [EvSearch "nike" noFilters; EvLoadMore])) <= 1)%nat.
Proof.
  apply (one_fetch_without_overlapping_search
           [EvSearch "nike" noFilters; EvLoadMore]).
  reflexivity.
Defined.

(** C4 at the failing input.  After a load-more has failed, the next
    load-more starts with [loading] true and the old error still set,
    and when its fetch succeeds the new videos are appended while the
    error stays: [loadMore] never clears [error], [handleSearch] does. *)
Theorem loadMore_keeps_old_error :
  let w0 := run initialWorld failedLoadMore in
  let w1 := loadMore w0 in
  let w2 := settle 0 (FetchOk secondPage) w1 in
  (loading (ui w1) = true /\ error (ui w1) = Some "Error: Bad Gateway") /\
  (loading (ui w2) = false /\ error (ui w2) = Some "Error: Bad Gateway" /\
   results (ui w2) = [sampleVideo] /\ nextPageToken (ui w2) = None).
Proof. vm_compute. repeat split. Qed.

(** The same cycle for a search: [handleSearch] does clear [error] when
    it starts, and ends with either the page or the error in place. *)
Lemma handleSearch_cycle k f w r :
  blank k = false ->
  let w1 := handleSearch k f w in
  let w2 := settle (List.length (inflight w)) r w1 in
  (loading (ui w1) = true /\ error (ui w1) = None) /\
  loading (ui w2) = false /\
  match r with
  | FetchOk data =>
      error (ui w2) = None /\ results (ui w2) = videos data /\
      nextPageToken (ui w2) = next_page_token data /\
      totalResults (ui w2) = total_results data
  | _ => error (ui w2) = thrown r /\ results (ui w2) = []
  end.
Proof.
  intros Hk. cbv zeta.
  rewrite handleSearch_passes by (rewrite trim_truthy, Hk; reflexivity).
  rewrite settle_newest. destruct r; cbn; repeat split; reflexivity.
Qed.

(** C5.  A search with an empty or white-space-only keyword changes
    nothing and starts no fetch, whether [handleSearch] is called
    directly or through the form. *)
Theorem blank_search_is_noop k f w :
  blank k = true ->
  handleSearch k f w = w /\
  forall form, SearchForm.keyword form = k -> SearchForm.handleSubmit form w = w.
Proof.
  intros Hk. split.
  - unfold handleSearch. rewrite trim_truthy, Hk. reflexivity.
  - intros form <-. unfold SearchForm.handleSubmit.
    rewrite trim_truthy, Hk. reflexivity.
Qed.

Lemma blank_search_is_noop_witness :
  handleSearch "   " noFilters initialWorld = initialWorld.
Proof.
  apply (blank_search_is_noop "   " noFilters initialWorld). reflexivity.
Defined.

(** C6.  While [loading] is true or [nextPageToken] is absent, a
    load-more starts no fetch and leaves every field as it is. *)
Theorem loadMore_guarded_is_noop w :
  loading (ui w) = true \/ nextPageToken (ui w) = None ->
  loadMore w = w.
Proof.
  intros [H|H]; unfold loadMore; rewrite H.
  - rewrite orb_true_r. reflexivity.
  - reflexivity.
Qed.

Lemma loadMore_guarded_is_noop_witness :
  loadMore initialWorld = initialWorld.
Proof. apply (loadMore_guarded_is_noop initialWorld). right. reflexivity. Defined.



(** C10.  A failed load-more leaves a state, reachable from the first
    render, with [error] set, the token still there and [loading]
    false; the next load-more passes the guard and starts a fetch for
    the same keyword and the same token, with no new search needed. *)
Theorem loadMore_can_be_retried k f first r :
  blank k = false ->
  JS.truthy (next_page_token first) = true ->
  failed r ->
  let w := run initialWorld
             [EvSearch k f; EvSettle 0 (FetchOk first); EvLoadMore; EvSettle 0 r] in
  (error (ui w) = thrown r /\ error (ui w) <> None /\
   nextPageToken (ui w) = next_page_token first /\
   loading (ui w) = false /\ inflight w = [] /\
   results (ui w) = videos first) /\
  (loading (ui (loadMore w)) = true /\
   inflight (loadMore w) =
     [AwaitMore
        (filterParams f
           [("keyword", k);
            ("page_token", match next_page_token first with Some t => t | None => "" end)])
        (videos first)]).
Proof.
  intros Hk Ht Hr. cbn [run fold_left step].
  rewrite handleSearch_passes by (rewrite trim_truthy, Hk; reflexivity).
  cbn [inflight initialWorld].
  change (settle 0 (FetchOk first) ?x) with
    (settle (List.length (@nil Pending)) (FetchOk first) x).
  rewrite settle_newest. cbn [resume handleSearchResume].
  rewrite loadMore_passes by (split; [exact Ht | reflexivity]).
  cbn [inflight].
  change (settle 0 r ?x) with (settle (List.length (@nil Pending)) r x).
  rewrite settle_newest.
  destruct r as [d|t|m]; [exfalso; apply Hr; reflexivity| |];
    (split; [cbn; repeat split; congruence|]);
    (rewrite loadMore_passes by (split; [exact Ht | reflexivity]));
    cbn; split; reflexivity.
Qed.

Lemma loadMore_can_be_retried_witness :
  inflight (loadMore (run initialWorld failedLoadMore)) =
    [AwaitMore [("keyword", "nike"); ("page_token", "t2")] []].
Proof.
  apply (loadMore_can_be_retried "nike" noFilters (mkData [] (Some "t2") 7%Z)
           (FetchNotOk "Bad Gateway")); [reflexivity | reflexivity | discriminate].
Defined.

End ControllerProperties.

(* ------------------------------------------------------------------ *)
(** ** View counts: lemmas on the binary64 quotient *)

Section Numbers.
Import Float64.
Local Open Scope Z_scope.

Lemma roundNearestEven_close a b :
  0 < b ->
  - b <= 2 * (roundNearestEven a b * b - a) <= b.
Proof.
  intros Hb. unfold roundNearestEven.
  pose proof (Z.div_mod a b ltac:(lia)) as Hdm.
  pose proof (Z.mod_pos_bound a b Hb) as Hr.
  set (q := a / b) in *. set (r := a mod b) in *.
  destruct (2 * r <? b) eqn:H1; [apply Z.ltb_lt in H1; nia|].
  apply Z.ltb_ge in H1.
  destruct (b <? 2 * r) eqn:H2; [apply Z.ltb_lt in H2; nia|].
  apply Z.ltb_ge in H2.
  destruct (Z.even q); nia.
Qed.

(** From a significand within half a unit of [n * P / d] to the tenths. *)
Lemma tenths_from_close n g m P K :
  0 < g -> 0 < P -> 20 * g < 2 * P ->
  - (20 * g) <= 2 * (m * (20 * g) - n * P) <= 20 * g ->
  2 * g * K + 1 <= n + g <= 2 * g * K + 2 * g - 1 ->
  (20 * m + P) / (2 * P) = K.
Proof.
  intros Hg HP Hd Hm HK.
  symmetry. apply Z.div_unique with (r := 20 * m + P - 2 * P * K); [|lia].
  left. split.
  - assert (0 <= (20 * m + P - 2 * P * K) * (20 * g)) by nia. nia.
  - assert ((20 * m + P - 2 * P * K) * (20 * g) < 2 * P * (20 * g)) by nia. nia.
Qed.

Lemma divide_expo n d :
  1 < d -> d <= n -> n < 2 ^ 53 ->
  let e := expo (divide n d) in
  e < 0 /\ d < 2 * 2 ^ (- e) /\ mant (divide n d) = roundNearestEven (n * 2 ^ (- e)) d.
Proof.
  intros Hd Hn Hlt. unfold divide. cbn [expo mant].
  pose proof (Z.log2_le_mono d n Hn) as Hmono.
  assert (Hln : Z.log2 n < 53) by (apply Z.log2_lt_pow2; lia).
  assert (Hld : 0 < Z.log2 d) by (apply Z.log2_pos; lia).
  pose proof (Z.log2_spec d ltac:(lia)) as [_ Hds].
  set (k := Z.log2 n - Z.log2 d).
  assert (Hpow : forall e, e <= k - 52 -> d < 2 * 2 ^ (- e)).
  { intros e He.
    assert (2 ^ Z.log2 d <= 2 ^ (- e)) by (apply Z.pow_le_mono_r; lia).
    rewrite Z.pow_succ_r in Hds by lia. lia. }
  assert (Hsc : forall e, e <= k - 52 ->
            scaled n d e = roundNearestEven (n * 2 ^ (- e)) d).
  { intros e He. unfold scaled.
    destruct (e <? 0) eqn:E; [reflexivity|]. apply Z.ltb_ge in E. lia. }
  match goal with |- context [if ?b then k - 52 else k - 53] => destruct b end;
    (split; [lia|]); (split; [apply Hpow; lia | apply Hsc; lia]).
Qed.

Lemma tenths_divide n g :
  0 < g -> 20 * g <= n -> n < 2 ^ 53 ->
  n mod (2 * g) <> g ->
  tenths (divide n (20 * g)) = (n + g) / (2 * g).
Proof.
  intros Hg Hn Hlt Hmid.
  destruct (divide_expo n (20 * g)) as (He & HP & Hm); [lia|lia|lia|].
  unfold tenths. 
  destruct (expo (divide n (20 * g)) <? 0) eqn:E; [|apply Z.ltb_ge in E; lia].
  set (e := expo (divide n (20 * g))) in *.
  replace (1 - e) with (Z.succ (- e)) by lia.
  rewrite Z.pow_succ_r by lia.
  assert (0 < 2 ^ (- e)) by (apply Z.pow_pos_nonneg; lia).
  apply tenths_from_close with (n := n) (g := g); try lia.
  - rewrite Hm. apply roundNearestEven_close. lia.
  - pose proof (Z.div_mod (n + g) (2 * g) ltac:(lia)).
    pose proof (Z.mod_pos_bound (n + g) (2 * g) ltac:(lia)).
    assert ((n + g) mod (2 * g) <> 0).
    { intros H2. apply Hmid.
      symmetry. apply Z.mod_unique with (q := (n + g) / (2 * g) - 1); lia. }
    lia.
Qed.

Lemma tenths_divide_midway n g :
  0 < g -> 20 * g <= n -> n < 2 ^ 53 ->
  n mod (2 * g) = g ->
  tenths (divide n (20 * g)) = (n + g) / (2 * g) \/
  tenths (divide n (20 * g)) = (n + g) / (2 * g) - 1.
Proof.
  intros Hg Hn Hlt Hmid.
  destruct (divide_expo n (20 * g)) as (He & HP & Hm); [lia|lia|lia|].
  unfold tenths.
  destruct (expo (divide n (20 * g)) <? 0) eqn:E; [|apply Z.ltb_ge in E; lia].
  set (e := expo (divide n (20 * g))) in *.
  replace (1 - e) with (Z.succ (- e)) by lia.
  rewrite Z.pow_succ_r by lia.
  assert (HP0 : 0 < 2 ^ (- e)) by (apply Z.pow_pos_nonneg; lia).
  set (P := 2 ^ (- e)) in *. set (m := mant (divide n (20 * g))) in *.
  pose proof (roundNearestEven_close (n * P) (20 * g) ltac:(lia)) as Hc.
  rewrite <- Hm in Hc.
  pose proof (Z.div_mod n (2 * g) ltac:(lia)) as Hdm. rewrite Hmid in Hdm.
  assert (HK : (n + g) / (2 * g) = n / (2 * g) + 1).
  { symmetry. apply Z.div_unique with (r := 0); lia. }
  rewrite HK. set (K := n / (2 * g)) in *.
  destruct (Z_le_gt_dec (2 * P * (K + 1)) (20 * m + P)) as [Hge|Hlt'].
  - left. symmetry.
    apply Z.div_unique with (r := 20 * m + P - 2 * P * (K + 1)); [|lia].
    left. split; [lia|].
    assert ((20 * m + P - 2 * P * (K + 1)) * (20 * g) < 2 * P * (20 * g)) by nia.
    nia.
  - right. symmetry.
    apply Z.div_unique with (r := 20 * m + P - 2 * P * K); [|lia].
    left. split; [|lia].
    assert (0 <= (20 * m + P - 2 * P * K) * (20 * g)) by nia. nia.
Qed.

End Numbers.

(* ------------------------------------------------------------------ *)
(** ** View counts: [divide] against the IEEE 754 specification *)

Section Binary64.

Import Float64.
Local Open Scope Z_scope.

Lemma digits2_pos_size p : digits2_pos p = Pos.size p.
Proof. induction p; simpl; congruence. Qed.

Lemma Zdigits2_log2 m : 0 < m -> Zdigits2 m = Z.log2 m + 1.
Proof.
  destruct m as [|p|p]; try lia. intros _. cbn [Zdigits2].
  rewrite digits2_pos_size. destruct p; cbn [Pos.size Z.log2]; lia.
Qed.

(** The rounding of [q] by the position of the remainder [r] of a
    division by [d] is rounding to nearest, ties to even. *)
Lemma round_new_location d q r :
  0 < d -> 0 <= r < d ->
  round_nearest_even q (new_location d r) =
  if 2 * r <? d then q
  else if d <? 2 * r then q + 1
  else if Z.even q then q else q + 1.
Proof.
  intros Hd Hr. unfold new_location, new_location_even, new_location_odd.
  destruct (Z.even d) eqn:Ev.
  - destruct (r =? 0) eqn:E0.
    + apply Z.eqb_eq in E0. subst r. cbn [round_nearest_even].
      destruct (2 * 0 <? d) eqn:E; [reflexivity|apply Z.ltb_ge in E; lia].
    + apply Z.eqb_neq in E0. cbn [round_nearest_even].
      destruct (2 * r ?= d) eqn:C.
      * apply Z.compare_eq in C.
        destruct (2 * r <? d) eqn:E1; [apply Z.ltb_lt in E1; lia|].
        destruct (d <? 2 * r) eqn:E2; [apply Z.ltb_lt in E2; lia|]. reflexivity.
      * rewrite Z.compare_lt_iff in C.
        destruct (2 * r <? d) eqn:E1; [reflexivity|apply Z.ltb_ge in E1; lia].
      * rewrite Z.compare_gt_iff in C.
        destruct (2 * r <? d) eqn:E1; [apply Z.ltb_lt in E1; lia|].
        destruct (d <? 2 * r) eqn:E2; [reflexivity|apply Z.ltb_ge in E2; lia].
  - assert (Hodd : Z.odd d = true) by (rewrite <- Z.negb_even, Ev; reflexivity).
    apply Z.odd_spec in Hodd. destruct Hodd as [h Hh].
    destruct (r =? 0) eqn:E0.
    + apply Z.eqb_eq in E0. subst r. cbn [round_nearest_even].
      destruct (2 * 0 <? d) eqn:E; [reflexivity|apply Z.ltb_ge in E; lia].
    + apply Z.eqb_neq in E0.
      destruct (2 * r + 1 ?= d) eqn:C; cbn [round_nearest_even].
      * apply Z.compare_eq in C.
        destruct (2 * r <? d) eqn:E1; [reflexivity|apply Z.ltb_ge in E1; lia].
      * rewrite Z.compare_lt_iff in C.
        destruct (2 * r <? d) eqn:E1; [reflexivity|apply Z.ltb_ge in E1; lia].
      * rewrite Z.compare_gt_iff in C.
        destruct (2 * r <? d) eqn:E1; [apply Z.ltb_lt in E1; lia|].
        destruct (d <? 2 * r) eqn:E2; [reflexivity|apply Z.ltb_ge in E2; lia].
Qed.

Lemma shr_1_pos m r s :
  0 < m ->
  shr_1 (Build_shr_record m r s) = Build_shr_record (m / 2) (Z.odd m) (r || s).
Proof.
  intros Hm. destruct m as [|p|p]; try lia.
  destruct p as [p|p|]; cbn [shr_1].
  - f_equal. rewrite Pos2Z.inj_xI.
    apply Z.div_unique with (r := 1); lia.
  - f_equal. rewrite Pos2Z.inj_xO.
    apply Z.div_unique with (r := 0); lia.
  - reflexivity.
Qed.

Lemma fexp_64 x : -1021 <= x -> fexp 53 1024 x = x - 53.
Proof. intros Hx. unfold fexp, emin. lia. Qed.

Lemma shr_fexp_fits m e l :
  0 < m -> Z.log2 m = 52 -> -1074 <= e ->
  shr_fexp 53 1024 m e l = (shr_record_of_loc m l, e).
Proof.
  intros Hm Hlog He. unfold shr_fexp.
  rewrite Zdigits2_log2, Hlog, fexp_64 by lia.
  replace (52 + 1 + e - 53 - e) with 0 by lia. reflexivity.
Qed.

Lemma shr_fexp_one_more m e l :
  0 < m -> Z.log2 m = 53 -> -1074 <= e ->
  shr_fexp 53 1024 m e l = (shr_1 (shr_record_of_loc m l), e + 1).
Proof.
  intros Hm Hlog He. unfold shr_fexp.
  rewrite Zdigits2_log2, Hlog, fexp_64 by lia.
  replace (53 + 1 + e - 53 - e) with 1 by lia. reflexivity.
Qed.

Lemma loc_of_shr_record_of_loc m l :
  loc_of_shr_record (shr_record_of_loc m l) = l.
Proof. destruct l as [|[]]; reflexivity. Qed.

Lemma shr_m_of_loc m l : shr_m (shr_record_of_loc m l) = m.
Proof. destruct l as [|[]]; reflexivity. Qed.

(** The second half of [binary_round_aux]: a rounded significand of 53
    bits stays, and [2 ^ 53] is renormalised. *)
Lemma binary_round_finish m e :
  2 ^ 52 <= m <= 2 ^ 53 -> -1074 <= e <= 900 ->
  (let '(mrs, e') := shr_fexp 53 1024 m e loc_Exact in
   match shr_m mrs with
   | Z0 => S754_zero false
   | Zpos m' => if e' <=? 1024 - 53 then S754_finite false m' e' else S754_infinity false
   | Zneg _ => S754_nan
   end) = finite53 m e.
Proof.
  intros Hm He. unfold finite53.
  destruct (m <? 2 ^ 53) eqn:E.
  - apply Z.ltb_lt in E.
    rewrite shr_fexp_fits; [| lia | apply Z.log2_unique; lia | lia].
    cbn [shr_record_of_loc shr_m].
    destruct m as [|p|p]; try lia.
    destruct (e <=? 1024 - 53) eqn:E'; [reflexivity|apply Z.leb_gt in E'; lia].
  - apply Z.ltb_ge in E. assert (m = 2 ^ 53) by lia. subst m.
    rewrite shr_fexp_one_more; [| lia | reflexivity | lia].
    cbn [shr_record_of_loc]. rewrite shr_1_pos by lia.
    cbn [shr_m]. change (2 ^ 53 / 2) with (2 ^ 52).
    change (2 ^ 52) with (Zpos (Z.to_pos (2 ^ 52))) at 1. cbv iota.
    destruct (e + 1 <=? 1024 - 53) eqn:E'; [reflexivity|apply Z.leb_gt in E'; lia].
Qed.

Lemma div_eucl_pair a b : Z.div_eucl a b = (a / b, a mod b).
Proof. unfold Z.div, Z.modulo. destruct (Z.div_eucl a b); reflexivity. Qed.

Lemma new_location_record d q r :
  exists r0 s0,
    shr_record_of_loc q (new_location d r) = Build_shr_record q r0 s0 /\
    r0 || s0 = negb (r =? 0).
Proof.
  unfold new_location, new_location_even, new_location_odd.
  destruct (Z.even d); destruct (r =? 0);
    try (exists false, false; split; reflexivity).
  - destruct (2 * r ?= d); cbn [shr_record_of_loc]; eauto.
  - destruct (2 * r + 1 ?= d); cbn [shr_record_of_loc]; eauto.
Qed.

(** The quotient and its exponent before rounding. *)
Lemma SFdiv_core_64 n d :
  0 < d -> d <= n -> n < 2 ^ 53 ->
  let k := Z.log2 n - Z.log2 d in
  SFdiv_core_binary 53 1024 n 0 d 0 =
  (n * 2 ^ (53 - k) / d, k - 53, new_location d ((n * 2 ^ (53 - k)) mod d)).
Proof.
  intros Hd Hn Hlt k. unfold SFdiv_core_binary.
  pose proof (Z.log2_le_mono d n Hn) as Hmono.
  assert (Hln : Z.log2 n < 53) by (apply Z.log2_lt_pow2; lia).
  pose proof (Z.log2_nonneg d) as Hld.
  rewrite !Zdigits2_log2 by lia.
  replace (Z.log2 n + 1 + 0 - (Z.log2 d + 1 + 0)) with k by (subst k; lia).
  rewrite fexp_64 by lia.
  replace (Z.min (k - 53) (0 - 0)) with (k - 53) by lia.
  replace (0 - 0 - (k - 53)) with (53 - k) by lia.
  destruct (53 - k) as [|s|s] eqn:Es; try lia.
  rewrite Z.shiftl_mul_pow2 by lia. rewrite div_eucl_pair. reflexivity.
Qed.

Lemma divide_is_SFdiv n d :
  1 < d -> d <= n -> n < 2 ^ 53 ->
  divideSpec n d = finite53 (mant (divide n d)) (expo (divide n d)) /\
  2 ^ 52 <= mant (divide n d) <= 2 ^ 53.
Proof.
  intros Hd Hn Hlt. unfold divideSpec. cbn [SFdiv xorb].
  rewrite !Z2Pos.id by lia.
  rewrite SFdiv_core_64 by lia.
  pose proof (Z.log2_le_mono d n Hn) as Hmono.
  assert (Hln : Z.log2 n < 53) by (apply Z.log2_lt_pow2; lia).
  assert (Hld : 0 < Z.log2 d) by (apply Z.log2_pos; lia).
  pose proof (Z.log2_spec n ltac:(lia)) as [Hn1 Hn2].
  pose proof (Z.log2_spec d ltac:(lia)) as [Hd1 Hd2].
  unfold divide. set (k := Z.log2 n - Z.log2 d). cbn [mant expo].
  destruct (k <? 0) eqn:Hk; [apply Z.ltb_lt in Hk; lia|]. clear Hk.
  assert (Hk : 0 <= k <= 52) by lia.
  set (P := 2 ^ (52 - k)).
  assert (HP : 0 < P) by (apply Z.pow_pos_nonneg; lia).
  assert (HP2 : 2 ^ (53 - k) = 2 * P).
  { subst P. replace (53 - k) with (Z.succ (52 - k)) by lia.
    apply Z.pow_succ_r. lia. }
  rewrite HP2.
  assert (H2k : 0 < 2 ^ k) by (apply Z.pow_pos_nonneg; lia).
  assert (HkP : 2 ^ k * P = 2 ^ 52).
  { subst P. rewrite <- Z.pow_add_r by lia. f_equal. lia. }
  assert (Hnk : 2 ^ Z.log2 n = 2 ^ k * 2 ^ Z.log2 d).
  { rewrite <- Z.pow_add_r by lia. f_equal. lia. }
  rewrite Z.pow_succ_r in Hn2, Hd2 by lia.
  set (N := n * (2 * P)).
  pose proof (Z.div_mod N d ltac:(lia)) as Hdm.
  pose proof (Z.mod_pos_bound N d ltac:(lia)) as Hr.
  set (q := N / d) in *. set (r := N mod d) in *.
  assert (Hq1 : 2 ^ 52 <= q).
  { assert (2 ^ 52 * d < (q + 1) * d) by nia. nia. }
  assert (Hq2 : q < 2 ^ 54).
  { assert (q * d < 2 ^ 54 * d) by nia. nia. }
  unfold binary_round_aux.
  destruct (d * 2 ^ k <=? n) eqn:Hat.
  - (* the quotient has 54 bits: one bit is shifted out before rounding *)
    apply Z.leb_le in Hat.
    assert (Hq3 : 2 ^ 53 <= q).
    { assert (2 ^ 53 * d < (q + 1) * d) by nia. nia. }
    rewrite shr_fexp_one_more; [| lia | apply Z.log2_unique; lia | lia].
    destruct (new_location_record d q r) as (r0 & s0 & -> & Hrs).
    rewrite shr_1_pos by lia. rewrite Hrs. cbn [shr_m].
    replace (k - 53 + 1) with (k - 52) by lia.
    assert (Hsc : scaled n d (k - 52) = roundNearestEven (n * P) d).
    { unfold scaled. destruct (k - 52 <? 0) eqn:E.
      - replace (- (k - 52)) with (52 - k) by lia. reflexivity.
      - apply Z.ltb_ge in E. assert (k = 52) by lia.
        subst P. replace (52 - k) with 0 by lia. replace (k - 52) with 0 by lia.
        rewrite Z.pow_0_r, !Z.mul_1_r. reflexivity. }
    rewrite Hsc. unfold roundNearestEven.
    pose proof (Z.div_mod (n * P) d ltac:(lia)) as Hdm2.
    pose proof (Z.mod_pos_bound (n * P) d ltac:(lia)) as Hr2.
    set (q2 := n * P / d) in *. set (r2 := (n * P) mod d) in *.
    assert (HN : N = 2 * (n * P)) by (subst N; lia).
    assert (Hhalf : q / 2 = q2 /\ 2 * q2 <= q <= 2 * q2 + 1 /\
                    (Z.odd q = true /\ r = 2 * r2 - d /\ d <= 2 * r2 \/
                     Z.odd q = false /\ r = 2 * r2 /\ 2 * r2 < d)).
    { destruct (Z_lt_le_dec (2 * r2) d) as [Hlow|Hhigh].
      - assert (q = 2 * q2) by nia.
        split; [symmetry; apply Z.div_unique with (r := 0); lia|].
        split; [lia|].
        right. repeat split; try lia.
        rewrite H, Z.odd_mul. reflexivity.
      - assert (q = 2 * q2 + 1) by nia.
        split; [symmetry; apply Z.div_unique with (r := 1); lia|].
        split; [lia|].
        left. repeat split; try lia.
        rewrite H, Z.add_comm, Z.odd_add_mul_2. reflexivity. }
    destruct Hhalf as (Hq2' & Hq2b & Hcases). rewrite Hq2'.
    assert (Hm : round_nearest_even q2
                   (loc_of_shr_record
                      (Build_shr_record q2 (Z.odd q) (negb (r =? 0)))) =
                 if 2 * r2 <? d then q2
                 else if d <? 2 * r2 then q2 + 1
                 else if Z.even q2 then q2 else q2 + 1).
    { destruct Hcases as [(-> & Hr' & Hge)|(-> & Hr' & Hlt')].
      - destruct (2 * r2 <? d) eqn:E1; [apply Z.ltb_lt in E1; lia|].
        destruct (d <? 2 * r2) eqn:E2.
        + apply Z.ltb_lt in E2.
          destruct (r =? 0) eqn:E0; [apply Z.eqb_eq in E0; lia|]. reflexivity.
        + apply Z.ltb_ge in E2.
          destruct (r =? 0) eqn:E0; [|apply Z.eqb_neq in E0; lia]. reflexivity.
      - destruct (2 * r2 <? d) eqn:E1; [|apply Z.ltb_ge in E1; lia].
        destruct (r =? 0); reflexivity. }
    rewrite Hm.
    match goal with |- _ = finite53 ?m _ /\ _ =>
      assert (Hb : 2 ^ 52 <= m <= 2 ^ 53)
    end.
    { assert (2 ^ 52 <= q2 < 2 ^ 53) by lia.
      destruct (2 * r2 <? d); [lia|]. destruct (d <? 2 * r2); [lia|].
      destruct (Z.even q2); lia. }
    split; [apply binary_round_finish; [exact Hb|lia] | exact Hb].
  - (* the quotient has 53 bits *)
    apply Z.leb_gt in Hat.
    assert (Hq3 : q < 2 ^ 53).
    { assert (q * d < 2 ^ 53 * d) by nia. nia. }
    rewrite shr_fexp_fits; [| lia | apply Z.log2_unique; lia | lia].
    rewrite shr_m_of_loc, loc_of_shr_record_of_loc.
    rewrite round_new_location by lia.
    assert (Hsc : scaled n d (k - 53) = roundNearestEven N d).
    { unfold scaled. destruct (k - 53 <? 0) eqn:E; [|apply Z.ltb_ge in E; lia].
      replace (- (k - 53)) with (53 - k) by lia. rewrite HP2. reflexivity. }
    rewrite Hsc. unfold roundNearestEven. fold q r.
    match goal with |- _ = finite53 ?m _ /\ _ =>
      assert (Hb : 2 ^ 52 <= m <= 2 ^ 53)
    end.
    { destruct (2 * r <? d); [lia|]. destruct (d <? 2 * r); [lia|].
      destruct (Z.even q); lia. }
    split; [apply binary_round_finish; [exact Hb|lia] | exact Hb].
Qed.

(** [divide] is the division of the Standard Library's specification
    of binary64, on all counts and units. *)
Theorem divide_agrees_with_SFdiv n d :
  1 < d -> d <= n -> n < 2 ^ 53 ->
  sameValue (divide n d) (ofSpec (divideSpec n d)) = true.
Proof.
  intros Hd Hn Hlt.
  destruct (divide_is_SFdiv n d Hd Hn Hlt) as [-> Hb].
  unfold finite53. destruct (mant (divide n d) <? 2 ^ 53) eqn:E.
  - cbn [ofSpec sameValue mant expo]. rewrite Z2Pos.id by lia.
    rewrite Z.min_id. apply Z.eqb_refl.
  - apply Z.ltb_ge in E. cbn [ofSpec sameValue mant expo].
    rewrite Z.min_l by lia.
    replace (expo (divide n d) - expo (divide n d)) with 0 by lia.
    replace (expo (divide n d) + 1 - expo (divide n d)) with 1 by lia.
    apply Z.eqb_eq. replace (mant (divide n d)) with (2 ^ 53) by lia.
    reflexivity.
Qed.

End Binary64.

(* ------------------------------------------------------------------ *)
(** ** View counts: properties *)

Section ViewCount.

Import VideoCard Props Float64.
Local Open Scope Z_scope.

(** The three counts the specification gives. *)
Example formatViews_examples :
  textOf (formatViews 999) = "999"%string /\
  textOf (formatViews 1500) = "1.5K"%string /\
  textOf (formatViews 2500000) = "2.5M"%string.
Proof. vm_compute. repeat split. Qed.

Lemma halfUpTenths_unit n g :
  0 < g -> halfUpTenths n (20 * g) = (n + g) / (2 * g).
Proof.
  intros Hg. unfold halfUpTenths.
  replace (20 * g / 2) with (10 * g)
    by (apply Z.div_unique with (r := 0); lia).
  replace (10 * n + 10 * g) with (10 * (n + g)) by lia.
  replace (20 * g) with (10 * (2 * g)) by lia.
  apply Z.div_mul_cancel_l; lia.
Qed.

Lemma midway_unit n g :
  0 < g -> midway n (20 * g) <-> n mod (2 * g) = g.
Proof.
  intros Hg. unfold midway.
  replace (20 * g / 2) with (10 * g)
    by (apply Z.div_unique with (r := 0); lia).
  replace (20 * g) with (10 * (2 * g)) by lia.
  rewrite Z.mul_mod_distr_l by lia. lia.
Qed.

(** The tenths of a quotient by [unit = 20 * g]. *)
Lemma tenths_nearest n g :
  0 < g -> 20 * g <= n -> n < 2 ^ 53 ->
  tenths (divide n (20 * g)) = halfUpTenths n (20 * g) \/
  (midway n (20 * g) /\
   tenths (divide n (20 * g)) = halfUpTenths n (20 * g) - 1).
Proof.
  intros Hg Hn Hlt. rewrite halfUpTenths_unit by exact Hg.
  destruct (Z.eq_dec (n mod (2 * g)) g) as [Hmid|Hmid].
  - destruct (tenths_divide_midway n g Hg Hn Hlt Hmid) as [H|H]; [left; exact H|].
    right. split; [apply midway_unit; assumption | exact H].
  - left. apply tenths_divide; assumption.
Qed.

(** C9, as stated, fails: 1,150,000 / 1,000,000 is midway between 1.1
    and 1.2, half-up gives 1.2, the double nearest to 1.15 is below 1.15
    and [toFixed(1)] gives "1.1". *)
Lemma formatViews_is_not_half_up :
  ~ (forall n, 0 <= n -> textOf (formatViews n) = specFormatViewCount n).
Proof.
  intros H. specialize (H 1150000 ltac:(lia)). vm_compute in H. discriminate.
Qed.

(** C9, amended.  For a count [n] below 2^53: from 1,000,000 on the
    text is [n / 1,000,000] rounded to the nearest tenth followed by
    "M"; from 1,000 on it is [n / 1,000] rounded to the nearest tenth
    followed by "K"; where the quotient is exactly midway between two
    tenths the text shows one of the two, the upper or the lower;
    below 1,000 the value is the number itself, shown as its digits. *)
Theorem formatViews_rounds_to_nearest_tenth n :
  0 <= n < 2 ^ 53 ->
  (n < 1000 ->
     formatViews n = Num n /\ textOf (formatViews n) = specFormatViewCount n) /\
  (1000 <= n < 1000000 ->
     exists k, textOf (formatViews n) = (fixed1 k ++ "K")%string /\
               (k = halfUpTenths n 1000 \/
                (midway n 1000 /\ k = halfUpTenths n 1000 - 1))) /\
  (1000000 <= n ->
     exists k, textOf (formatViews n) = (fixed1 k ++ "M")%string /\
               (k = halfUpTenths n 1000000 \/
                (midway n 1000000 /\ k = halfUpTenths n 1000000 - 1))) /\
  (~ midway n (if 1000000 <=? n then 1000000 else 1000) ->
     textOf (formatViews n) = specFormatViewCount n).
Proof.
  intros [H0 Hlt].
  assert (HK : 1000 <= n < 1000000 ->
     textOf (formatViews n) = (fixed1 (tenths (divide n 1000)) ++ "K")%string).
  { intros [Ha Hb]. unfold formatViews.
    destruct (1000000 <=? n) eqn:E1; [apply Z.leb_le in E1; lia|].
    destruct (1000 <=? n) eqn:E2; [reflexivity|apply Z.leb_gt in E2; lia]. }
  assert (HM : 1000000 <= n ->
     textOf (formatViews n) = (fixed1 (tenths (divide n 1000000)) ++ "M")%string).
  { intros Ha. unfold formatViews.
    destruct (1000000 <=? n) eqn:E1; [reflexivity|apply Z.leb_gt in E1; lia]. }
  pose proof (tenths_nearest n 50 ltac:(lia)) as TK.
  pose proof (tenths_nearest n 50000 ltac:(lia)) as TM.
  change (20 * 50) with 1000 in TK. change (20 * 50000) with 1000000 in TM.
  split; [|split; [|split]].
  - intros Hn. unfold formatViews, specFormatViewCount.
    destruct (1000000 <=? n) eqn:E1; [apply Z.leb_le in E1; lia|].
    destruct (1000 <=? n) eqn:E2; [apply Z.leb_le in E2; lia|].
    split; reflexivity.
  - intros Hn. exists (tenths (divide n 1000)). split; [apply HK, Hn|].
    apply TK; lia.
  - intros Hn. exists (tenths (divide n 1000000)). split; [apply HM, Hn|].
    apply TM; lia.
  - unfold specFormatViewCount.
    destruct (1000000 <=? n) eqn:E1; intros N.
    + apply Z.leb_le in E1. rewrite (HM E1).
      destruct (TM E1 Hlt) as [->|[Hm _]]; [reflexivity|contradiction].
    + apply Z.leb_gt in E1. destruct (1000 <=? n) eqn:E2.
      * apply Z.leb_le in E2. rewrite (HK (conj E2 E1)).
        destruct (TK E2 Hlt) as [->|[Hm _]]; [reflexivity|contradiction].
      * unfold formatViews. rewrite (proj2 (Z.leb_gt _ _) E1), E2. reflexivity.
Qed.

Lemma formatViews_rounds_to_nearest_tenth_witness :
  textOf (formatViews 1549) = "1.5K"%string.
Proof.
  destruct (formatViews_rounds_to_nearest_tenth 1549) as (_ & _ & _ & H);
    [lia|].
  rewrite H; [reflexivity | unfold midway; vm_compute; discriminate].
Defined.

End ViewCount.

(* ------------------------------------------------------------------ *)
(** ** Highlighting: lemmas on matching and splitting *)

Section Matching.

Import RegExp Props.
Local Open Scope nat_scope.

Variable str : list ascii.

Lemma setNth_length {A} i (v : A) l : List.length (setNth i v l) = List.length l.
Proof. revert i; induction l; intros [|i]; simpl; auto. Qed.

Lemma clearCaptures_length groups caps :
  List.length (clearCaptures groups caps) = List.length caps.
Proof.
  induction groups; simpl; [reflexivity|]. rewrite setNth_length. assumption.
Qed.

Lemma reaches_here (c : Continuation) (x z : MatchState) :
  fst x <= List.length str -> c x = Some z -> reaches str c x z.
Proof. intros Hx H. exists x. repeat split; [exact H|lia..]. Qed.

Lemma reaches_trans (c c' : Continuation) (x y z : MatchState) :
  fst x <= fst y -> List.length (snd y) = List.length (snd x) ->
  (forall y' : MatchState, c' y' = Some z -> fst y <= fst y' -> fst y' <= List.length str ->
              List.length (snd y') = List.length (snd y) -> reaches str c y' z) ->
  reaches str c' y z -> reaches str c x z.
Proof.
  intros Hle Hcap Hc (y' & Hy' & H1 & H2 & H3).
  destruct (Hc y' Hy' H1 H2 H3) as (y2 & Hy2 & H4 & H5 & H6).
  exists y2. repeat split; auto; lia.
Qed.

Lemma characterMatcher_passes test : passes str (characterMatcher str test).
Proof.
  intros x c z Hx H. unfold characterMatcher in H.
  destruct (nth_error str (fst x)) eqn:E; [|discriminate].
  destruct (test a); [|discriminate].
  assert (fst x < List.length str) by (apply nth_error_Some; congruence).
  eexists. split; [exact H|]. simpl. lia.
Qed.

Lemma repeatStep_passes m greedy groups (again : Continuation) (x : MatchState)
    (c : Continuation) (z : MatchState) :
  passes str m ->
  (forall y : MatchState, fst x <= fst y -> fst y <= List.length str ->
             List.length (snd y) = List.length (snd x) ->
             again y = Some z -> reaches str c y z) ->
  fst x <= List.length str ->
  repeatStep m greedy groups again x c = Some z ->
  reaches str c x z.
Proof.
  intros Hm Hagain Hx H. unfold repeatStep in H.
  assert (Hiter :
    m (fst x, clearCaptures groups (snd x))
      (fun y => if fst y =? fst x then None else again y) = Some z ->
    reaches str c x z).
  { intros Hz. apply Hm in Hz; [|exact Hx].
    refine (reaches_trans c _ x _ z _ _ _ Hz);
      [simpl; lia | simpl; apply clearCaptures_length | ].
    cbn [fst snd]. intros y' Hy' H1 H2 H3.
    destruct (fst y' =? fst x); [discriminate|].
    rewrite clearCaptures_length in H3. apply Hagain; auto. }
  destruct greedy.
  - destruct (m _ _) eqn:E; [inversion H; subst; auto|apply reaches_here; assumption].
  - destruct (c x) eqn:E; [inversion H; subst; apply reaches_here; assumption|auto].
Qed.

Lemma repeatStar_passes m greedy groups :
  passes str m -> forall left, passes str (repeatStar left m greedy groups).
Proof.
  intros Hm left. induction left as [|left IH]; intros x c z Hx H;
    cbn [repeatStar] in H;
    apply (repeatStep_passes _ _ _ _ _ _ _ Hm) in H; try assumption.
  - intros; discriminate.
  - intros y H1 H2 H3 Hy. apply IH; assumption.
Qed.

Lemma matchNode_passes n : passes str (matchNode str n).
Proof.
  induction n as [|ch| | | |a IHa b IHb|a IHa b IHb|i a IHa|a IHa|q greedy a IHa];
    cbn [matchNode].
  - intros x c z Hx H. apply reaches_here; assumption.
  - apply characterMatcher_passes.
  - apply characterMatcher_passes.
  - intros x c z Hx H.
    destruct (fst x =? 0); [apply reaches_here; assumption|discriminate].
  - intros x c z Hx H.
    destruct (fst x =? List.length str); [apply reaches_here; assumption|discriminate].
  - intros x c z Hx H. apply IHa in H; [|exact Hx].
    refine (reaches_trans c _ x _ z _ _ _ H); [lia | reflexivity | ].
    intros y' Hy' H1 H2 H3. apply IHb; assumption.
  - intros x c z Hx H.
    destruct (matchNode str a x c) eqn:E.
    + inversion H; subst. apply IHa; assumption.
    + apply IHb; assumption.
  - intros x c z Hx H. apply IHa in H; [|exact Hx].
    refine (reaches_trans c _ x _ z _ _ _ H); [lia | reflexivity | ].
    intros y' Hy' H1 H2 H3.
    exists (fst y', setNth (i - 1) (Some (fst x, fst y')) (snd y')).
    cbn [fst snd]. rewrite setNth_length. auto.
  - exact IHa.
  - destruct q.
    + intros x c z Hx H. apply (repeatStar_passes _ _ _ IHa) in H; assumption.
    + intros x c z Hx H. apply IHa in H; [|exact Hx].
      refine (reaches_trans c _ x _ z _ _ _ H);
        [simpl; lia | simpl; apply clearCaptures_length | ].
      intros y' Hy' H1 H2 H3.
      apply (repeatStar_passes _ _ _ IHa) in Hy'; assumption.
    + intros x c z Hx H.
      apply (repeatStep_passes _ _ _ _ _ _ _ IHa) in H; try assumption.
      intros y _ Hy' _ Hy. apply reaches_here; assumption.
Qed.

Lemma characterMatcher_respects test : respects str (characterMatcher str test).
Proof.
  intros x c c' Hx H. unfold characterMatcher.
  destruct (nth_error str (fst x)) eqn:E; [|reflexivity].
  destruct (test a); [|reflexivity].
  assert (fst x < List.length str) by (apply nth_error_Some; congruence).
  apply H; simpl; lia.
Qed.

Lemma repeatStep_respects m greedy groups (again again' : Continuation)
    (x : MatchState) (c c' : Continuation) :
  respects str m ->
  fst x <= List.length str ->
  (forall y : MatchState, fst x <= fst y -> fst y <= List.length str -> c y = c' y) ->
  (forall y : MatchState, fst x < fst y -> fst y <= List.length str ->
                          again y = again' y) ->
  repeatStep m greedy groups again x c = repeatStep m greedy groups again' x c'.
Proof.
  intros Hm Hx Hc Hagain. unfold repeatStep.
  rewrite (Hc x) by lia.
  rewrite (Hm (fst x, clearCaptures groups (snd x)) _
              (fun y => if fst y =? fst x then None else again' y)).
  - reflexivity.
  - exact Hx.
  - cbn [fst]. intros y H1 H2.
    destruct (fst y =? fst x) eqn:E; [reflexivity|].
    apply Nat.eqb_neq in E. apply Hagain; lia.
Qed.

Lemma repeatStar_respects m greedy groups :
  respects str m -> forall left, respects str (repeatStar left m greedy groups).
Proof.
  intros Hm left. induction left as [|left IH]; intros x c c' Hx H;
    cbn [repeatStar]; apply repeatStep_respects; auto.
  intros y H1 H2. apply IH; [exact H2|]. intros y' H3 H4. apply H; lia.
Qed.

(** [left] is no cut-off: once it covers the characters after the end
    index, a larger bound gives the same answer. *)
Lemma repeatStar_left m greedy groups :
  respects str m ->
  forall left x c,
    fst x <= List.length str -> List.length str - fst x <= left ->
    repeatStar (S left) m greedy groups x c = repeatStar left m greedy groups x c.
Proof.
  intros Hm left. induction left as [|left IH]; intros x c Hx Hleft.
  - cbn [repeatStar]. apply repeatStep_respects; auto. intros y H1 H2. lia.
  - change (repeatStar (S (S left)) m greedy groups x c)
      with (repeatStep m greedy groups
              (fun y => repeatStar (S left) m greedy groups y c) x c).
    change (repeatStar (S left) m greedy groups x c)
      with (repeatStep m greedy groups
              (fun y => repeatStar left m greedy groups y c) x c).
    apply repeatStep_respects; auto.
    intros y H1 H2. apply IH; lia.
Qed.

Lemma matchNode_respects n : respects str (matchNode str n).
Proof.
  induction n as [|ch| | | |a IHa b IHb|a IHa b IHb|i a IHa|a IHa|q greedy a IHa];
    cbn [matchNode].
  - intros x c c' Hx H. apply H; lia.
  - apply characterMatcher_respects.
  - apply characterMatcher_respects.
  - intros x c c' Hx H. destruct (fst x =? 0); [apply H; lia|reflexivity].
  - intros x c c' Hx H.
    destruct (fst x =? List.length str); [apply H; lia|reflexivity].
  - intros x c c' Hx H. apply IHa; [exact Hx|].
    intros y H1 H2. apply IHb; [exact H2|]. intros y' H3 H4. apply H; lia.
  - intros x c c' Hx H. rewrite (IHa x c c' Hx H), (IHb x c c' Hx H). reflexivity.
  - intros x c c' Hx H. apply IHa; [exact Hx|].
    intros y H1 H2. apply H; simpl; lia.
  - exact IHa.
  - destruct q.
    + intros x c c' Hx H. apply repeatStar_respects; assumption.
    + intros x c c' Hx H. apply IHa; [exact Hx|]. cbn [fst].
      intros y H1 H2. apply repeatStar_respects; [exact IHa|exact H2|].
      intros y' H3 H4. apply H; lia.
    + intros x c c' Hx H. apply repeatStep_respects; auto.
      intros y H1 H2. apply H; lia.
Qed.

(** So the bound [matchNode] gives to [repeatStar], the number of
    characters left, can be raised at will. *)
Lemma repeatStar_any_left a greedy more (x : MatchState) (c : Continuation) :
  fst x <= List.length str ->
  repeatStar (List.length str - fst x + more) (matchNode str a) greedy (groupsOf a) x c =
  repeatStar (List.length str - fst x) (matchNode str a) greedy (groupsOf a) x c.
Proof.
  intros Hx. induction more as [|more IH]; [rewrite Nat.add_0_r; reflexivity|].
  rewrite Nat.add_succ_r, repeatStar_left; auto using matchNode_respects. lia.
Qed.
Lemma execAt_bounds pattern nCaptures q e caps :
  q <= List.length str ->
  execAt pattern nCaptures str q = Some (e, caps) ->
  q <= e /\ e <= List.length str /\ List.length caps = nCaptures.
Proof.
  intros Hq H. apply matchNode_passes in H; [|exact Hq].
  destruct H as (y & Hy & H1 & H2 & H3). inversion Hy; subst.
  cbn [fst snd] in *. rewrite repeat_length in H3. auto.
Qed.

(** The fuel [split] gives to its loop is enough. *)
Lemma splitLoop_total pattern nCaptures fuel : forall p q,
  p <= q ->
  2 * (List.length str - q) + (if p <? q then 1 else 0) < fuel ->
  exists parts, splitLoop fuel pattern nCaptures str p q = Some parts.
Proof.
  induction fuel as [|fuel IH]; intros p q Hpq Hfuel; [lia|].
  cbn [splitLoop].
  destruct (List.length str <=? q) eqn:Hend; [eexists; reflexivity|].
  apply Nat.leb_gt in Hend.
  assert (Hnext : exists parts,
            splitLoop fuel pattern nCaptures str p (q + 1) = Some parts).
  { apply IH; [lia|]. destruct (p <? q + 1); destruct (p <? q); lia. }
  destruct (execAt pattern nCaptures str q) as [[lastIndex caps]|] eqn:E;
    [|exact Hnext].
  apply execAt_bounds in E; [|lia]. destruct E as (H1 & H2 & _).
  rewrite (Nat.min_l _ _ H2).
  destruct (lastIndex =? p) eqn:Hp; [exact Hnext|].
  apply Nat.eqb_neq in Hp.
  destruct (IH lastIndex lastIndex) as [rest Hrest]; [lia| |].
  - rewrite Nat.ltb_irrefl.
    destruct (p <? q) eqn:Hlt; [lia|]. apply Nat.ltb_ge in Hlt. lia.
  - rewrite Hrest. eexists; reflexivity.
Qed.

Lemma split_total pattern nCaptures :
  exists parts, split pattern nCaptures str = Some parts.
Proof.
  unfold split. destruct str as [|ch rest] eqn:E.
  - destruct (execAt _ _ _ _); eexists; reflexivity.
  - rewrite <- E. apply splitLoop_total; [lia|]. simpl. lia.
Qed.




Lemma string_of_list_ascii_app (a b : list ascii) :
  string_of_list_ascii (a ++ b) =
  (string_of_list_ascii a ++ string_of_list_ascii b)%string.
Proof. induction a; simpl; congruence. Qed.

Lemma append_empty_r (s : string) : (s ++ "")%string = s.
Proof. induction s; simpl; congruence. Qed.

Lemma firstn_then_firstn {A} (a b : nat) : forall l : list A,
  firstn a l ++ firstn b (skipn a l) = firstn (a + b) l.
Proof.
  induction a as [|a IH]; intros [|x l]; simpl; auto.
  - rewrite firstn_nil. reflexivity.
  - rewrite IH. reflexivity.
Qed.

Lemma substring_app p q e :
  p <= q -> q <= e ->
  (substring str p q ++ substring str q e)%string = substring str p e.
Proof.
  intros Hpq Hqe. unfold substring. rewrite <- string_of_list_ascii_app.
  replace (skipn q str) with (skipn (q - p) (skipn p str))
    by (rewrite skipn_skipn; f_equal; lia).
  rewrite firstn_then_firstn. do 2 f_equal. lia.
Qed.

(** A pattern that is one capturing group reports the whole match as
    its only capture. *)
Lemma execAt_whole_group body q e caps :
  q <= List.length str ->
  execAt (Seq (Group 1 body) Empty) 1 str q = Some (e, caps) ->
  q <= e /\ e <= List.length str /\ caps = [Some (q, e)].
Proof.
  intros Hq H. unfold execAt in H. cbn [matchNode] in H.
  apply matchNode_passes in H; [|exact Hq].
  destruct H as ([e' caps'] & Hy & H1 & H2 & H3).
  cbn [fst snd repeat List.length] in *. inversion Hy; subst.
  destruct caps' as [|o [|? ?]]; try discriminate. simpl. auto.
Qed.

Lemma splitLoop_round_trip body fuel : forall p q parts,
  p <= q -> q <= List.length str ->
  splitLoop fuel (Seq (Group 1 body) Empty) 1 str p q = Some parts ->
  exists strings,
    parts = map Some strings /\
    fold_right String.append EmptyString strings =
      substring str p (List.length str).
Proof.
  induction fuel as [|fuel IH]; intros p q parts Hpq Hq H; [discriminate|].
  cbn [splitLoop] in H.
  destruct (List.length str <=? q) eqn:Hend.
  { inversion H. exists [substring str p (List.length str)].
    split; [reflexivity|]. simpl. apply append_empty_r. }
  apply Nat.leb_gt in Hend.
  destruct (execAt _ 1 str q) as [[lastIndex caps]|] eqn:E;
    [|apply (IH p (q + 1)); [lia|lia|exact H]].
  apply execAt_whole_group in E; [|lia]. destruct E as (H1 & H2 & ->).
  rewrite (Nat.min_l _ _ H2) in H.
  destruct (lastIndex =? p); [apply (IH p (q + 1)); [lia|lia|exact H]|].
  destruct (splitLoop fuel _ 1 str lastIndex lastIndex) as [rest|] eqn:Hrest;
    [|discriminate].
  apply IH in Hrest; [|lia|lia]. destruct Hrest as (strings & -> & Hcat).
  inversion H.
  exists (substring str p q :: substring str q lastIndex :: strings).
  split; [reflexivity|].
  cbn [fold_right]. rewrite Hcat, !substring_app; auto; lia.
Qed.

Lemma substring_all : substring str 0 (List.length str) = string_of_list_ascii str.
Proof.
  unfold substring. rewrite Nat.sub_0_r. cbn [skipn]. rewrite firstn_all.
  reflexivity.
Qed.

Lemma split_round_trip body parts :
  split (Seq (Group 1 body) Empty) 1 str = Some parts ->
  str <> [] ->
  exists strings,
    parts = map Some strings /\
    fold_right String.append EmptyString strings = string_of_list_ascii str.
Proof.
  unfold split. destruct str as [|ch rest] eqn:E; [congruence|]. rewrite <- E.
  intros H _. apply splitLoop_round_trip in H; [|lia|lia].
  rewrite substring_all in H. exact H.
Qed.

End Matching.

(* ------------------------------------------------------------------ *)
(** ** Highlighting: properties *)

Section Highlighting.

Import RegExp VideoCard Props.


Lemma mapParts_fuel keyword parts : mapParts keyword parts <> OutOfFuel.
Proof.
  induction parts as [|[part|] parts IH]; cbn [mapParts]; try discriminate.
  destruct (mapParts keyword parts); try discriminate. contradiction.
Qed.

(** [split] never runs out of the fuel it is given, so [highlightText]
    returns or throws on every pattern that is modelled. *)
Lemma highlightText_fuel text keyword : highlightText text keyword <> OutOfFuel.
Proof.
  unfold highlightText. destruct (negb (JS.truthyStr text)); [discriminate|].
  destruct (RegExp.parse _) as [pattern nCaptures| |]; try discriminate.
  destruct (split_total (list_ascii_of_string text) pattern nCaptures)
    as [parts ->].
  apply mapParts_fuel.
Qed.

Lemma mapParts_strings keyword strings :
  exists segments,
    mapParts keyword (map Some strings) = Returned segments /\
    joined segments = fold_right String.append EmptyString strings.
Proof.
  induction strings as [|s strings (segments & Hm & Hj)].
  - exists []. split; reflexivity.
  - cbn [map mapParts]. rewrite Hm. eexists. split; [reflexivity|].
    cbn [joined fold_right]. rewrite Hj.
    destruct (JS.toLowerCase s =? JS.toLowerCase keyword)%string; reflexivity.
Qed.

Lemma list_ascii_of_string_app (a b : string) :
  list_ascii_of_string (a ++ b) = list_ascii_of_string a ++ list_ascii_of_string b.
Proof. induction a; simpl; congruence. Qed.

Ltac orb_false H :=
  repeat match type of H with
         | (_ || _) = false => apply orb_false_iff in H; destruct H as [H ?]
         end.

(** A keyword of pattern characters only is read as the sequence of its
    characters, inside the one group. *)
Lemma parseFrom_literal kw : forall terms,
  forallb (fun c => negb (syntaxCharacter c)) kw = true ->
  parseFrom (kw ++ [")"%char]) [(Capturing 1, [], [])] [] terms 1 =
  Ok (Seq (Group 1 (seqOf (rev terms ++ map Char kw))) Empty) 1.
Proof.
  induction kw as [|c kw IH]; intros terms Hkw.
  - cbn. rewrite app_nil_r. reflexivity.
  - cbn [forallb] in Hkw. apply andb_true_iff in Hkw as [Hc Hkw].
    apply negb_true_iff in Hc. unfold syntaxCharacter in Hc. orb_false Hc.
    cbn [app parseFrom]. unfold quantifierOf, notModelledChar.
    repeat match goal with H : (c =? _)%char = false |- _ => rewrite H; clear H end.
    cbn [orb]. rewrite IH by exact Hkw. cbn [rev map].
    rewrite <- app_assoc. reflexivity.
Qed.

Lemma parse_literal keyword :
  literal keyword = true ->
  parse ("(" ++ keyword ++ ")") =
  Ok (Seq (Group 1 (seqOf (map Char (list_ascii_of_string keyword)))) Empty) 1.
Proof.
  intros Hkw. unfold parse. cbn [append list_ascii_of_string].
  rewrite list_ascii_of_string_app. cbn [list_ascii_of_string].
  change ("("%char =? "(")%char with true. cbn [parseFrom].
  change ("("%char =? "(")%char with true. cbv iota.
  unfold literal in Hkw.
  destruct (list_ascii_of_string keyword) as [|c kw] eqn:E.
  - reflexivity.
  - assert (Hq : (c =? "?")%char = false).
    { cbn [forallb] in Hkw. apply andb_true_iff in Hkw as [Hc _].
      apply negb_true_iff in Hc. unfold syntaxCharacter in Hc. orb_false Hc.
      assumption. }
    cbn [app]. rewrite Hq.
    exact (parseFrom_literal (c :: kw) [] Hkw).
Qed.

(** Without parentheses in the keyword the group around it stays the
    only one, whatever else the keyword holds. *)
Lemma parseFrom_paren_free n : forall kw alts terms pattern k,
  List.length kw <= n ->
  forallb (fun c => negb ((c =? "(") || (c =? ")"))%char) kw = true ->
  parseFrom (kw ++ [")"%char]) [(Capturing 1, [], [])] alts terms 1 = Ok pattern k ->
  exists body, pattern = Seq (Group 1 body) Empty /\ k = 1.
Proof.
  induction n as [|n IH]; intros kw alts terms pattern k Hlen Hkw H.
  - destruct kw; [|simpl in Hlen; lia]. cbn in H. inversion H. eauto.
  - destruct kw as [|c kw]; [cbn in H; inversion H; eauto|].
    cbn [forallb] in Hkw. apply andb_true_iff in Hkw as [Hc Hkw].
    apply negb_true_iff in Hc. orb_false Hc.
    cbn [List.length] in Hlen.
    cbn [app parseFrom] in H. rewrite Hc, H0 in H.
    destruct (c =? "|")%char; [apply (IH kw) in H; auto; lia|].
    destruct (quantifierOf c) as [q|].
    + destruct terms as [|t terms]; [discriminate|].
      destruct (quantifiable t); [|discriminate].
      destruct kw as [|c1 kw1]; [apply (IH []) in H; auto; simpl; lia|].
      cbn [app] in H.
      destruct (c1 =? "?")%char.
      * cbn [forallb] in Hkw. apply andb_true_iff in Hkw as [_ Hkw].
        apply (IH kw1) in H; auto. simpl in Hlen. lia.
      * apply (IH (c1 :: kw1)) in H; auto. lia.
    + destruct (notModelledChar c); [discriminate|].
      destruct (c =? ".")%char; [apply (IH kw) in H; auto; lia|].
      destruct (c =? "^")%char; [apply (IH kw) in H; auto; lia|].
      destruct (c =? "$")%char; apply (IH kw) in H; auto; lia.
Qed.

Lemma parse_paren_free keyword pattern k :
  parenFree keyword = true ->
  parse ("(" ++ keyword ++ ")") = Ok pattern k ->
  exists body, pattern = Seq (Group 1 body) Empty /\ k = 1.
Proof.
  unfold parenFree, parse. intros Hkw H. apply andb_true_iff in Hkw as [Hkw Hq].
  cbn [append list_ascii_of_string] in H.
  rewrite list_ascii_of_string_app in H. cbn [list_ascii_of_string] in H.
  cbn [parseFrom] in H. change ("("%char =? "(")%char with true in H. cbv iota in H.
  destruct keyword as [|c keyword].
  - cbn in H. inversion H. eauto.
  - cbn [list_ascii_of_string app] in H. apply negb_true_iff in Hq.
    rewrite Hq in H.
    apply (parseFrom_paren_free (S (List.length (list_ascii_of_string keyword)))
             (c :: list_ascii_of_string keyword)) in H; auto.
Qed.

(** X16.  Where the round trip of C2 does hold: for a keyword without
    parentheses (and no leading [?]) the group around the keyword is
    the only one and captures every match, so whatever [highlightText]
    returns reads [text] again. *)
Theorem paren_free_keyword_round_trip text keyword segments :
  parenFree keyword = true ->
  highlightText text keyword = Returned segments ->
  joined segments = text.
Proof.
  intros Hkw. unfold highlightText.
  destruct text as [|ch text'] eqn:E; [intros H; inversion H; reflexivity|].
  rewrite <- E. replace (negb (JS.truthyStr text)) with false by (subst; reflexivity).
  destruct (parse _) as [pattern k| |] eqn:Hp; try discriminate.
  apply parse_paren_free in Hp; [|exact Hkw]. destruct Hp as (body & -> & ->).
  destruct (split _ 1 _) as [parts|] eqn:Hparts; [|discriminate].
  apply split_round_trip in Hparts; [|subst; discriminate].
  destruct Hparts as (strings & -> & Hcat).
  destruct (mapParts_strings keyword strings) as (segs & Hm & Hj).
  rewrite Hm. intros H. inversion H; subst segs.
  rewrite Hj, Hcat. apply string_of_list_ascii_of_string.
Qed.

(** For a keyword of pattern characters only, [highlightText] returns,
    and its segments read [text] again. *)
Theorem literal_keyword_round_trip text keyword :
  literal keyword = true ->
  exists segments,
    highlightText text keyword = Returned segments /\ joined segments = text.
Proof.
  intros Hkw. unfold highlightText.
  destruct text as [|ch text'] eqn:E; [exists []; split; reflexivity|].
  rewrite <- E. replace (negb (JS.truthyStr text)) with false by (subst; reflexivity).
  rewrite (parse_literal keyword Hkw).
  destruct (split_total (list_ascii_of_string text)
              (Seq (Group 1 (seqOf (map Char (list_ascii_of_string keyword)))) Empty) 1)
    as [parts Hparts].
  rewrite Hparts. apply split_round_trip in Hparts; [|subst; discriminate].
  destruct Hparts as (strings & -> & Hcat).
  destruct (mapParts_strings keyword strings) as (segments & Hm & Hj).
  exists segments. split; [exact Hm|].
  rewrite Hj, Hcat. apply string_of_list_ascii_of_string.
Qed.

Lemma allAscii_complete c : In c allAscii.
Proof.
  unfold allAscii. apply in_map_iff. exists (nat_of_ascii c).
  split; [apply ascii_nat_embedding|].
  apply in_seq. pose proof (nat_ascii_bounded c). lia.
Qed.

Lemma lowerChar_sameLetter_all :
  forallb (fun c =>
    forallb (fun d =>
      Bool.eqb (JS.lowerChar c =? JS.lowerChar d)%char (sameLetter c d))
      allAscii) allAscii = true.
Proof. vm_compute. reflexivity. Qed.

Lemma lowerChar_sameLetter c d :
  (JS.lowerChar c =? JS.lowerChar d)%char = sameLetter c d.
Proof.
  pose proof lowerChar_sameLetter_all as H.
  rewrite forallb_forall in H. specialize (H c (allAscii_complete c)).
  rewrite forallb_forall in H. specialize (H d (allAscii_complete d)).
  apply Bool.eqb_prop in H. exact H.
Qed.

(** The comparison of line 25, lower case against lower case, is
    equality up to the case of letters. *)
Lemma toLowerCase_equalIgnoringCase a : forall b,
  (JS.toLowerCase a =? JS.toLowerCase b)%string = equalIgnoringCase a b.
Proof.
  induction a as [|c a IH]; intros [|d b]; cbn; try reflexivity.
  rewrite lowerChar_sameLetter, IH. reflexivity.
Qed.



(** C2 at failing inputs.  The keyword goes into the pattern as it is.
    With the keyword [nike (official)] the pattern has two groups, the
    parentheses match nothing and [split] hands out the inner match a
    second time: the segments of "Nike Official video" read
    "Nike OfficialOfficial video".  With the keyword [?:a] the only
    group does not capture and the matches are dropped.  With the
    keyword [c++] the pattern is no regular expression and
    [new RegExp] throws. *)
Theorem highlight_round_trip_broken :
  highlightText "Nike Official video" "nike (official)" =
    Returned [Plain ""; Plain "Nike Official"; Plain "Official"; Plain " video"] /\
  joined [Plain ""; Plain "Nike Official"; Plain "Official"; Plain " video"] =
    "Nike OfficialOfficial video" /\
  highlightText "xay" "?:a" = Returned [Plain "x"; Plain "y"] /\
  highlightText "learn c++ fast" "c++" = ThrewSyntaxError.
Proof. vm_compute. repeat split. Qed.

End Highlighting.

(* ------------------------------------------------------------------ *)
(** ** The search controller: further properties *)

Section MoreController.

Import App Props MoreProps.

Lemma filterParams_app f p : filterParams f p = p ++ filterParams f [].
Proof.
  unfold filterParams, appendIf.
  destruct (JS.truthyStr (minDate f)), (JS.truthyStr (maxDate f)),
           (JS.truthyStr (minViews f)), (JS.truthyStr (channelName f));
    cbn; rewrite <- ?app_assoc, ?app_nil_r; reflexivity.
Qed.

Lemma settle_none_issued r w :
  settle (List.length (inflight w)) r w = w.
Proof.
  unfold settle.
  replace (nth_error (inflight w) (List.length (inflight w))) with (@None Pending);
    [reflexivity|].
  symmetry. apply nth_error_None. apply Nat.le_refl.
Qed.

Lemma loadPages_keeps pages : forall w,
  keyword (ui (loadPages pages w)) = keyword (ui w) /\
  filters (ui (loadPages pages w)) = filters (ui w).
Proof.
  induction pages as [|p pages IH]; intros w; [split; reflexivity|].
  cbn [loadPages]. unfold loadMore.
  destruct (negb (JS.truthy (nextPageToken (ui w))) || loading (ui w)).
  - rewrite settle_none_issued. apply IH.
  - rewrite settle_newest.
    match goal with |- context [loadPages pages ?w1] =>
      destruct (IH w1) as [Hk Hf]
    end.
    rewrite Hk, Hf. split; reflexivity.
Qed.

(** X1.  After a search session, started in any state, the next
    load-more puts one more fetch in flight, behind the ones that were
    there before the session, and asks for the same keyword and the
    same filters as the search did, with the token of the last page
    after the keyword: the filters of the submit are reused for every
    further page. *)
Theorem loadMore_request_after_session k f first pages w t :
  blank k = false ->
  tokensLead (next_page_token first) pages ->
  lastToken (next_page_token first) pages = Some t ->
  JS.truthyStr t = true ->
  let w' := session k f first pages w in
  inflight (loadMore w') =
    inflight w ++
    [AwaitMore (("keyword", k) :: ("page_token", t) :: tl (searchParams k f))
               (List.concat (map videos (first :: pages)))].
Proof.
  intros Hk Htok Hlast Ht w'. subst w'. unfold session.
  rewrite handleSearch_passes by (rewrite trim_truthy, Hk; reflexivity).
  rewrite settle_newest. cbn [resume handleSearchResume].
  match goal with |- context [loadPages pages ?w1] =>
    destruct (loadPages_results pages w1) as (Hr & _ & Hn & Hl & Hi); auto;
    destruct (loadPages_keeps pages w1) as [Hkw Hf];
    set (w2 := loadPages pages w1) in *
  end.
  cbn in Hr, Hn, Hkw, Hf, Hi. rewrite Hlast in Hn.
  rewrite loadMore_passes by (split; [rewrite Hn; exact Ht | exact Hl]).
  cbn [inflight]. rewrite Hi.
  unfold moreParams, searchParams. rewrite Hkw, Hf, Hn, Hr.
  rewrite (filterParams_app f [_; _]), (filterParams_app f [_]). reflexivity.
Qed.

Lemma settle_only p r s :
  settle 0 r (mkWorld s [p]) = mkWorld (resume p r s) [].
Proof. reflexivity. Qed.

Ltac search_passes k Hk :=
  rewrite (handleSearch_passes k) by (rewrite trim_truthy, Hk; reflexivity).

(** X2.  Nothing tells an old search from a new one: when a second
    search is issued before the first is answered and the first answer
    arrives last, the page shows the second keyword with the videos,
    token and total of the first search. *)
Theorem stale_search_response_overwrites k1 f1 k2 f2 d1 d2 :
  blank k1 = false -> blank k2 = false ->
  let w := run initialWorld
             [EvSearch k1 f1; EvSearch k2 f2;
              EvSettle 1 (FetchOk d2); EvSettle 0 (FetchOk d1)] in
  keyword (ui w) = k2 /\ filters (ui w) = f2 /\
  results (ui w) = videos d1 /\
  nextPageToken (ui w) = next_page_token d1 /\
  totalResults (ui w) = total_results d1 /\
  loading (ui w) = false /\ inflight w = [].
Proof.
  intros H1 H2. cbv zeta. cbn [run fold_left step].
  search_passes k1 H1. search_passes k2 H2. cbn. repeat split; reflexivity.
Qed.

(** X3.  [loadMore] appends to the [results] it saw when it was called:
    when a new search is issued and answered while a load-more is in
    flight, the late page puts the old search's videos back, under the
    new keyword and the new total. *)
Theorem late_page_brings_back_old_results k1 f1 k2 f2 d1 d2 page :
  blank k1 = false -> blank k2 = false ->
  JS.truthy (next_page_token d1) = true ->
  let w := run initialWorld
             [EvSearch k1 f1; EvSettle 0 (FetchOk d1); EvLoadMore;
              EvSearch k2 f2; EvSettle 1 (FetchOk d2);
              EvSettle 0 (FetchOk page)] in
  keyword (ui w) = k2 /\
  results (ui w) = videos d1 ++ videos page /\
  nextPageToken (ui w) = next_page_token page /\
  totalResults (ui w) = total_results d2 /\
  loading (ui w) = false /\ inflight w = [].
Proof.
  intros H1 H2 Ht. cbv zeta. cbn [run fold_left step].
  search_passes k1 H1. cbn [inflight initialWorld app].
  rewrite settle_only. cbn [resume handleSearchResume].
  rewrite loadMore_passes by (split; [exact Ht | reflexivity]).
  search_passes k2 H2. cbn. repeat split; reflexivity.
Qed.

(** X4.  An answer to an overtaken search resets [loading] while the
    newer search is still in flight; a load-more is then let through
    and asks for the new keyword with the page token of the old
    search. *)
Theorem loadMore_after_overlap_mixes_searches k1 f1 k2 f2 d1 t :
  blank k1 = false -> blank k2 = false ->
  next_page_token d1 = Some t -> JS.truthyStr t = true ->
  let w := run initialWorld
             [EvSearch k1 f1; EvSearch k2 f2; EvSettle 0 (FetchOk d1)] in
  loading (ui w) = false /\
  inflight w = [AwaitSearch (searchParams k2 f2)] /\
  inflight (loadMore w) =
    [AwaitSearch (searchParams k2 f2);
     AwaitMore (("keyword", k2) :: ("page_token", t) :: tl (searchParams k2 f2))
               (videos d1)].
Proof.
  intros H1 H2 Hd Ht. cbv zeta. cbn [run fold_left step].
  search_passes k1 H1. search_passes k2 H2. cbn [inflight initialWorld app ui].
  unfold settle. cbn [inflight nth_error removeNth ui resume handleSearchResume].
  split; [reflexivity|]. split; [reflexivity|].
  rewrite loadMore_passes by (split; cbn; [rewrite Hd; exact Ht | reflexivity]).
  cbn. unfold moreParams, searchParams. cbn. rewrite Hd.
  rewrite (filterParams_app f2 [_; _]), (filterParams_app f2 [_]). reflexivity.
Qed.

(** X5.  Submitting the form is calling [handleSearch] with the
    keyword and the four filter fields of the form, whatever the form
    holds: the blank check of the form never changes the outcome. *)
Theorem handleSubmit_is_handleSearch form w :
  SearchForm.handleSubmit form w =
  handleSearch (SearchForm.keyword form)
    (mkFilters (SearchForm.minDate form) (SearchForm.maxDate form)
               (SearchForm.minViews form) (SearchForm.channelName form)) w.
Proof.
  unfold SearchForm.handleSubmit, handleSearch.
  destruct (negb (JS.truthyStr (JS.trim (SearchForm.keyword form)))); reflexivity.
Qed.

Lemma resume_keeps p r s :
  keyword (resume p r s) = keyword s /\ filters (resume p r s) = filters s /\
  (error s <> None -> error (resume p r s) <> None).
Proof.
  destruct p, r; cbn; repeat split; auto; discriminate.
Qed.

Lemma step_without_search_keeps w e :
  match e with EvSearch _ _ => false | _ => true end = true ->
  keyword (ui (step w e)) = keyword (ui w) /\
  filters (ui (step w e)) = filters (ui w) /\
  (error (ui w) <> None -> error (ui (step w e)) <> None).
Proof.
  destruct e as [k f| |i r]; [discriminate| |]; intros _; cbn [step].
  - unfold loadMore.
    destruct (negb (JS.truthy (nextPageToken (ui w))) || loading (ui w));
      cbn; auto.
  - unfold settle. destruct (nth_error (inflight w) i); [|auto].
    cbn [ui]. apply resume_keeps.
Qed.

(** X6.  Only a search changes the keyword and the filters, and only a
    search takes an error away: over any load-mores and settled
    fetches, keyword and filters stay and an error that is set stays
    set. *)
Theorem without_search_error_stays es : forall w,
  noSearch es = true ->
  keyword (ui (run w es)) = keyword (ui w) /\
  filters (ui (run w es)) = filters (ui w) /\
  (error (ui w) <> None -> error (ui (run w es)) <> None).
Proof.
  induction es as [|e es IH]; intros w Hes; [auto|].
  cbn [noSearch forallb] in Hes. apply andb_true_iff in Hes as [He Hes].
  cbn [run fold_left].
  destruct (step_without_search_keeps w e He) as (Hk & Hf & Herr).
  destruct (IH (step w e) Hes) as (Hk' & Hf' & Herr').
  unfold run in *. rewrite Hk', Hf', Hk, Hf. auto.
Qed.

(** The invariant behind X7: the keyword is not blank, or nothing has
    been searched yet. *)
Lemma searched_or_untouched es : forall w,
  blank (keyword (ui w)) = false \/ untouched w ->
  blank (keyword (ui (run w es))) = false \/ untouched (run w es).
Proof.
  induction es as [|e es IH]; intros w Hw; [exact Hw|].
  cbn [run fold_left]. apply IH. clear IH.
  destruct e as [k f| |i r]; cbn [step].
  - unfold handleSearch. destruct (JS.truthyStr (JS.trim k)) eqn:Hk; cbn [negb].
    + left. cbn. rewrite trim_truthy in Hk. apply negb_true_iff in Hk. exact Hk.
    + exact Hw.
  - unfold loadMore.
    destruct (negb (JS.truthy (nextPageToken (ui w))) || loading (ui w)) eqn:Hg;
      [exact Hw|].
    apply orb_false_iff in Hg as [Ht _]. apply negb_false_iff in Ht.
    destruct Hw as [Hk|(_ & Hn & _)]; [left; exact Hk|].
    rewrite Hn in Ht. discriminate.
  - unfold settle. destruct (nth_error (inflight w) i) as [p|] eqn:Hp; [|exact Hw].
    destruct Hw as [Hk|(_ & _ & Hin)].
    + left. cbn [ui]. destruct (resume_keeps p r (ui w)) as (-> & _). exact Hk.
    + rewrite Hin in Hp. destruct i; discriminate.
Qed.

(** X7.  In every state reached from the first render, results, a
    fetch in flight or a page token are there only after a search with
    a keyword that is not blank: a card never gets an empty keyword. *)
Theorem results_come_with_a_keyword es :
  let w := run initialWorld es in
  results (ui w) <> [] \/ inflight w <> [] \/ nextPageToken (ui w) <> None ->
  blank (keyword (ui w)) = false.
Proof.
  intros w H.
  destruct (searched_or_untouched es initialWorld) as [Hk|(Hr & Hn & Hi)].
  - right. repeat split; reflexivity.
  - exact Hk.
  - fold w in Hr, Hn, Hi. destruct H as [H|[H|H]]; contradiction.
Qed.


Lemma loadMore_request_after_session_witness :
  inflight (loadMore (session "nike" (mkFilters "" "" "1000" "") 
                        (mkData [sampleVideo] (Some "t2") 7%Z) [] initialWorld)) =
  [AwaitMore [("keyword", "nike"); ("page_token", "t2"); ("min_views", "1000")]
             [sampleVideo]].
Proof.
  apply (loadMore_request_after_session "nike" (mkFilters "" "" "1000" "")
           (mkData [sampleVideo] (Some "t2") 7%Z) [] initialWorld "t2");
    [reflexivity | exact I | reflexivity | reflexivity].
Defined.

Lemma stale_search_response_overwrites_witness :
  let w := run initialWorld
             [EvSearch "nike" noFilters; EvSearch "adidas" noFilters;
              EvSettle 1 (FetchOk secondPage);
              EvSettle 0 (FetchOk (mkData [] (Some "t2") 3%Z))] in
  keyword (ui w) = "adidas" /\ totalResults (ui w) = 3%Z.
Proof.
  destruct (stale_search_response_overwrites "nike" noFilters "adidas" noFilters
              (mkData [] (Some "t2") 3%Z) secondPage)
    as (Hk & _ & _ & _ & Ht & _); [reflexivity | reflexivity |].
  split; [exact Hk | exact Ht].
Defined.

Lemma late_page_brings_back_old_results_witness :
  results (ui (run initialWorld
     [EvSearch "nike" noFilters;
      EvSettle 0 (FetchOk (mkData [sampleVideo] (Some "t2") 7%Z));
      EvLoadMore; EvSearch "adidas" noFilters;
      EvSettle 1 (FetchOk (mkData [] None 0%Z));
      EvSettle 0 (FetchOk secondPage)])) = [sampleVideo; sampleVideo].
Proof.
  apply (late_page_brings_back_old_results "nike" noFilters "adidas" noFilters
           (mkData [sampleVideo] (Some "t2") 7%Z) (mkData [] None 0%Z) secondPage);
    reflexivity.
Defined.

Lemma loadMore_after_overlap_mixes_searches_witness :
  inflight (loadMore (run initialWorld
     [EvSearch "nike" noFilters; EvSearch "adidas" noFilters;
      EvSettle 0 (FetchOk (mkData [sampleVideo] (Some "t2") 7%Z))])) =
  [AwaitSearch [("keyword", "adidas")];
   AwaitMore [("keyword", "adidas"); ("page_token", "t2")] [sampleVideo]].
Proof.
  apply (loadMore_after_overlap_mixes_searches "nike" noFilters "adidas" noFilters
           (mkData [sampleVideo] (Some "t2") 7%Z) "t2"); reflexivity.
Defined.

Lemma without_search_error_stays_witness :
  error (ui (run (run initialWorld failedLoadMore)
               [EvLoadMore; EvSettle 0 (FetchOk secondPage)])) <> None.
Proof.
  apply (without_search_error_stays [EvLoadMore; EvSettle 0 (FetchOk secondPage)]
           (run initialWorld failedLoadMore)); [reflexivity | discriminate].
Defined.

Lemma results_come_with_a_keyword_witness :
  blank (keyword (ui (run initialWorld
     [EvSearch "nike" noFilters; EvSettle 0 (FetchOk secondPage)]))) = false.
Proof.
  apply (results_come_with_a_keyword
           [EvSearch "nike" noFilters; EvSettle 0 (FetchOk secondPage)]).
  left. discriminate.
Defined.

End MoreController.

(* ------------------------------------------------------------------ *)
(** ** What is shown: properties *)

Section Views.

Import App VideoCard Render Props MoreProps.

Lemma not_blank_truthy k : blank k = false -> JS.truthyStr k = true.
Proof. destruct k; [discriminate|reflexivity]. Qed.

(** X8.  The Load More button is offered exactly when [loadMore] will
    start a fetch: pressing it where it shows puts one fetch in flight
    and swaps the button for the spinner over the same cards; where it
    does not show, [loadMore] does nothing. *)
Theorem loadMore_button_starts_a_fetch w v :
  view (ui w) = inl v ->
  (loadMoreButton v = true ->
     inflight (loadMore w) =
       inflight w ++ [AwaitMore (moreParams (ui w)) (results (ui w))] /\
     exists v', view (ui (loadMore w)) = inl v' /\
                loadMoreButton v' = false /\ spinner v' = true /\
                cards v' = cards v) /\
  (loadMoreButton v = false -> loadMore w = w).
Proof.
  unfold view. destruct (cardsOf (results (ui w)) (keyword (ui w))) as [cs|e] eqn:Hc;
    [|discriminate].
  intros H. inversion H; subst v; clear H. cbn [loadMoreButton cards].
  split.
  - intros Hb. apply andb_true_iff in Hb as [Ht Hl]. apply negb_true_iff in Hl.
    rewrite loadMore_passes by (split; assumption).
    split; [reflexivity|]. cbn [ui setLoading results keyword].
    rewrite Hc. eexists. split; [reflexivity|]. cbn.
    rewrite andb_false_r. repeat split.
  - intros Hb. unfold loadMore.
    replace (negb (JS.truthy (nextPageToken (ui w))) || loading (ui w)) with true;
      [reflexivity|].
    destruct (JS.truthy (nextPageToken (ui w))), (loading (ui w));
      try reflexivity; discriminate.
Qed.

(** X9.  What a search shows, in whatever state it is issued.  The
    render that follows the call shows the spinner alone.  When the
    fetch of this search is the next to be answered: after a status
    that is not ok the error and, with it, the line that nothing was
    found; after a page without videos that line, and the Load More
    button as well when the page carries a token. *)
Theorem search_cycle_views k f w :
  blank k = false ->
  let searching := handleSearch k f w in
  let own := List.length (inflight w) in
  view (ui searching) = inl (mkView None None [] true false None) /\
  (forall statusText,
     view (ui (settle own (FetchNotOk statusText) searching)) =
     inl (mkView (Some ("Error: " ++ statusText)%string) None [] false false (Some k))) /\
  (forall data, videos data = [] ->
     view (ui (settle own (FetchOk data) searching)) =
     inl (mkView None None [] false (JS.truthy (next_page_token data)) (Some k))).
Proof.
  intros Hk. cbv zeta.
  rewrite handleSearch_passes by (rewrite trim_truthy, Hk; reflexivity).
  pose proof (not_blank_truthy k Hk) as Hkt.
  split; [reflexivity|]. split.
  - intros t. rewrite settle_newest. cbn. rewrite Hkt. reflexivity.
  - intros [vs token total] Hd. cbn in Hd. subst vs.
    rewrite settle_newest. cbn. rewrite Hkt, andb_true_r. reflexivity.
Qed.


Lemma loadMore_button_starts_a_fetch_witness :
  loadMore (mkWorld (mkState "nike" [] true None (Some "t2") 7%Z noFilters) []) =
  mkWorld (mkState "nike" [] true None (Some "t2") 7%Z noFilters) [].
Proof.
  apply (loadMore_button_starts_a_fetch
           (mkWorld (mkState "nike" [] true None (Some "t2") 7%Z noFilters) [])
           (mkView None None [] true false None));
    reflexivity.
Defined.

Lemma search_cycle_views_witness :
  view (ui (settle 0 (FetchNotOk "Internal Server Error")
              (handleSearch "Nike" noFilters initialWorld))) =
  inl (mkView (Some "Error: Internal Server Error") None [] false false
              (Some "Nike")).
Proof.
  apply (search_cycle_views "Nike" noFilters initialWorld). reflexivity.
Defined.

End Views.

Section Labels.

Import Render MoreProps.

Lemma join_labels_injective a : forall b,
  Forall isLabel a -> Forall isLabel b ->
  join ", " a = join ", " b -> a = b.
Proof.
  induction a as [|x a IH]; intros [|y b] Ha Hb H.
  - reflexivity.
  - exfalso. inversion Hb as [|? ? Hy _]; subst.
    destruct b; destruct Hy as [-> | [-> | ->]]; discriminate.
  - exfalso. inversion Ha as [|? ? Hx _]; subst.
    destruct a; destruct Hx as [-> | [-> | ->]]; discriminate.
  - inversion Ha as [|? ? Hx Ha']; inversion Hb as [|? ? Hy Hb']; subst.
    destruct a as [|x2 a], b as [|y2 b];
      destruct Hx as [-> | [-> | ->]], Hy as [-> | [-> | ->]];
      try discriminate; try reflexivity;
      cbn [join] in H; injection H as H;
      f_equal; apply IH; assumption.
Qed.

Lemma knownType_cases t :
  knownType t = true -> t = "title" \/ t = "description" \/ t = "transcript".
Proof.
  unfold knownType. intros H.
  apply orb_true_iff in H as [H|H]; [apply orb_true_iff in H as [H|H]|];
    apply String.eqb_eq in H; auto.
Qed.

Lemma labels_of_known l :
  forallb knownType l = true -> Forall isLabel (map labelOf l).
Proof.
  induction l as [|t l IH]; cbn [forallb map]; intros H; [constructor|].
  apply andb_true_iff in H as [Ht Hl]. constructor; [|apply IH, Hl].
  destruct (knownType_cases t Ht) as [-> | [-> | ->]]; unfold isLabel; cbn; auto.
Qed.

Lemma getMatchLabel_join l : getMatchLabel l = join ", " (map labelOf l).
Proof. destruct l; reflexivity. Qed.

(** X10.  On the match types the card knows (title, description,
    transcript) the label loses nothing: two lists with the same label
    are the same list, order included. *)
Theorem getMatchLabel_tells_the_types a : forall b,
  forallb knownType a = true -> forallb knownType b = true ->
  getMatchLabel a = getMatchLabel b -> a = b.
Proof.
  intros b Ha Hb H. rewrite !getMatchLabel_join in H.
  apply join_labels_injective in H; try (apply labels_of_known; assumption).
  revert b Hb H. induction a as [|x a IH]; intros [|y b] Hb H; try discriminate;
    [reflexivity|].
  cbn [forallb] in Ha, Hb.
  apply andb_true_iff in Ha as [Hx Ha]. apply andb_true_iff in Hb as [Hy Hb].
  cbn [map] in H. injection H as Hxy H. f_equal; [|apply IH; assumption].
  destruct (knownType_cases x Hx) as [-> | [-> | ->]],
           (knownType_cases y Hy) as [-> | [-> | ->]];
    try reflexivity; discriminate.
Qed.

Lemma getMatchLabel_tells_the_types_witness :
  getMatchLabel ["title"; "transcript"] = "Title, Transcript" /\
  ["title"; "transcript"] = ["title"; "transcript"].
Proof.
  split; [reflexivity|].
  apply (getMatchLabel_tells_the_types ["title"; "transcript"]
           ["title"; "transcript"]); reflexivity.
Defined.

End Labels.

(* ------------------------------------------------------------------ *)
(** ** Highlighting a literal keyword *)

Section Exact.

Import RegExp VideoCard Props MoreProps.
Local Open Scope nat_scope.

Lemma canonicalize_sameLetter_all :
  forallb (fun c =>
    forallb (fun d =>
      Bool.eqb (JS.canonicalize c =? JS.canonicalize d)%N (sameLetter c d))
      allAscii) allAscii = true.
Proof. vm_compute. reflexivity. Qed.

(** The case folding of the [i] flag identifies the same characters as
    [toLowerCase] does. *)
Lemma canonicalize_sameLetter c d :
  (JS.canonicalize c =? JS.canonicalize d)%N = sameLetter c d.
Proof.
  pose proof canonicalize_sameLetter_all as H.
  rewrite forallb_forall in H. specialize (H c (allAscii_complete c)).
  rewrite forallb_forall in H. specialize (H d (allAscii_complete d)).
  apply Bool.eqb_prop in H. exact H.
Qed.

Variable str : list ascii.

Lemma skipn_nth_error q :
  skipn q str =
  match nth_error str q with
  | Some t => t :: skipn (S q) str
  | None => []
  end.
Proof.
  revert q. induction str as [|a l IH]; intros [|q]; try reflexivity.
  cbn [nth_error]. rewrite <- IH. reflexivity.
Qed.

Lemma matchNode_literal word : forall (x : MatchState) (c : Continuation),
  matchNode str (seqOf (map Char word)) x c =
  if startsWith word (skipn (fst x) str)
  then c (fst x + List.length word, snd x) else None.
Proof.
  induction word as [|k word IH]; intros [q caps] c; cbn [map seqOf matchNode].
  - cbn. rewrite Nat.add_0_r. reflexivity.
  - unfold characterMatcher. cbn [fst snd]. rewrite (skipn_nth_error q).
    destruct (nth_error str q) as [t|]; [|reflexivity].
    cbn [startsWith]. rewrite canonicalize_sameLetter.
    destruct (sameLetter t k); [|reflexivity].
    rewrite IH. cbn [fst snd andb List.length].
    replace (1 + q + List.length word) with (q + S (List.length word)) by lia.
    reflexivity.
Qed.

Lemma execAt_literal word q :
  execAt (Seq (Group 1 (seqOf (map Char word))) Empty) 1 str q =
  if startsWith word (skipn q str)
  then Some (q + List.length word, [Some (q, q + List.length word)])
  else None.
Proof.
  unfold execAt. cbn [matchNode]. rewrite matchNode_literal. reflexivity.
Qed.

Lemma startsWith_length word : forall text,
  startsWith word text = true -> List.length word <= List.length text.
Proof.
  induction word as [|k word IH]; intros [|t text] H; cbn in *; try lia;
    try discriminate.
  apply andb_true_iff in H as [_ H]. apply IH in H. lia.
Qed.

Lemma startsWith_firstn word : forall n text,
  startsWith word (firstn n text) = true -> startsWith word text = true.
Proof.
  induction word as [|k word IH]; intros n text H; [reflexivity|].
  destruct n, text as [|t text]; cbn in H; try discriminate.
  apply andb_true_iff in H as [H1 H2]. cbn. rewrite H1. apply (IH n). exact H2.
Qed.

Lemma occursIn_firstn word : word <> [] -> forall n text,
  (forall i, i < n -> startsWith word (skipn i text) = false) ->
  occursIn word (firstn n text) = false.
Proof.
  intros Hw. induction n as [|n IH]; intros text H.
  - destruct word; [congruence|]. destruct text; reflexivity.
  - destruct text as [|t text].
    + destruct word; [congruence|]. reflexivity.
    + cbn [firstn occursIn]. apply orb_false_iff. split.
      * destruct (startsWith word (t :: firstn n text)) eqn:E; [|reflexivity].
        apply (startsWith_firstn word (S n) (t :: text)) in E.
        rewrite <- (H 0 ltac:(lia)). symmetry. exact E.
      * apply IH. intros i Hi. apply (H (S i)). lia.
Qed.

Lemma equalIgnoringCase_startsWith a : forall b,
  equalIgnoringCase a b = true ->
  startsWith (list_ascii_of_string b) (list_ascii_of_string a) = true.
Proof.
  induction a as [|c a IH]; intros [|d b] H; cbn in *; try discriminate;
    [reflexivity|].
  apply andb_true_iff in H as [H1 H2]. rewrite H1. apply IH. exact H2.
Qed.

Lemma startsWith_equalIgnoringCase word : forall text,
  startsWith word text = true ->
  equalIgnoringCase (string_of_list_ascii (firstn (List.length word) text))
                    (string_of_list_ascii word) = true.
Proof.
  induction word as [|k word IH]; intros [|t text] H; cbn in *;
    try discriminate; try reflexivity.
  apply andb_true_iff in H as [H1 H2]. rewrite H1. apply IH. exact H2.
Qed.

Variable keyword : string.
Let word := list_ascii_of_string keyword.
Hypothesis keyword_not_empty : keyword <> EmptyString.

Lemma word_not_nil : word <> [].
Proof.
  subst word. destruct keyword; [congruence|discriminate].
Qed.

(** A piece that ends before any occurrence starts is plain. *)
Lemma piece_is_plain p q :
  (forall j, p <= j < q -> startsWith word (skipn j str) = false) ->
  occursIn word (list_ascii_of_string (substring str p q)) = false /\
  (JS.toLowerCase (substring str p q) =? JS.toLowerCase keyword)%string = false.
Proof.
  intros H.
  assert (Hocc : occursIn word (list_ascii_of_string (substring str p q)) = false).
  { unfold substring. rewrite list_ascii_of_string_of_list_ascii.
    apply occursIn_firstn; [apply word_not_nil|].
    intros i Hi. rewrite skipn_skipn. apply H. lia. }
  split; [exact Hocc|].
  rewrite toLowerCase_equalIgnoringCase.
  destruct (equalIgnoringCase (substring str p q) keyword) eqn:E; [|reflexivity].
  apply equalIgnoringCase_startsWith in E. fold word in E.
  destruct (list_ascii_of_string (substring str p q)); cbn in Hocc;
    rewrite E in Hocc; discriminate.
Qed.

Lemma splitLoop_marks fuel : forall p q parts,
  p <= q ->
  (forall j, p <= j < q -> startsWith word (skipn j str) = false) ->
  splitLoop fuel (Seq (Group 1 (seqOf (map Char word))) Empty) 1 str p q
    = Some parts ->
  exists segments,
    mapParts keyword parts = Returned segments /\ marked keyword segments.
Proof.
  induction fuel as [|fuel IH]; intros p q parts Hpq Hfree H; [discriminate|].
  cbn [splitLoop] in H.
  destruct (List.length str <=? q) eqn:Hend.
  { inversion H; subst parts. cbn [mapParts].
    destruct (piece_is_plain p (List.length str)) as [Hocc Hlow].
    { intros j Hj. destruct (Nat.lt_ge_cases j q) as [Hlt|Hge]; [apply Hfree; lia|].
      apply Nat.leb_le in Hend. rewrite skipn_all2 by lia.
      pose proof word_not_nil. destruct word; [congruence|reflexivity]. }
    rewrite Hlow. eexists. split; [reflexivity|]. constructor. exact Hocc. }
  apply Nat.leb_gt in Hend. rewrite execAt_literal in H.
  destruct (startsWith word (skipn q str)) eqn:Hq.
  - pose proof (startsWith_length _ _ Hq) as Hlen. rewrite length_skipn in Hlen.
    assert (Hpos : 0 < List.length word).
    { pose proof word_not_nil. destruct word; [congruence|simpl; lia]. }
    rewrite Nat.min_l in H by lia.
    destruct (q + List.length word =? p) eqn:E; [apply Nat.eqb_eq in E; lia|].
    destruct (splitLoop fuel _ 1 str _ _) as [rest|] eqn:Hrest; [|discriminate].
    apply IH in Hrest; [|lia|intros j Hj; lia].
    destruct Hrest as (segments & Hm & Hmarked).
    inversion H; subst parts. cbn [captureStrings map option_map app mapParts].
    rewrite Hm.
    destruct (piece_is_plain p q Hfree) as [Hocc Hlow]. rewrite Hlow.
    assert (Heq : equalIgnoringCase (substring str q (q + List.length word)) keyword
                  = true).
    { unfold substring. replace (q + List.length word - q) with (List.length word) by lia.
      pose proof (startsWith_equalIgnoringCase word _ Hq) as Hx.
      unfold word in Hx at 2. rewrite string_of_list_ascii_of_string in Hx.
      exact Hx. }
    rewrite toLowerCase_equalIgnoringCase, Heq.
    eexists. split; [reflexivity|]. constructor; assumption.
  - apply IH in H; [exact H|lia|].
    intros j Hj. destruct (Nat.eq_dec j q) as [->|Hne]; [exact Hq|apply Hfree; lia].
Qed.

End Exact.

Section MoreHighlighting.

Import RegExp App VideoCard Render Props MoreProps.

(** X11.  On strings of code units below 256 (the Latin-1 range, the
    strings of this embedding), text and keyword alike: for a keyword
    of pattern characters only, and not empty, [highlightText] marks
    the occurrences of the keyword and nothing else: plain pieces and
    highlighted pieces alternate, every highlighted piece is the
    keyword up to case, no plain piece holds the keyword in any case,
    and the pieces read the text again.  Strings with code units from
    256 on are not covered. *)
Theorem literal_keyword_marks_occurrences text keyword :
  literal keyword = true ->
  keyword <> EmptyString -> text <> EmptyString ->
  exists segments,
    highlightText text keyword = Returned segments /\
    marked keyword segments /\
    joined segments = text.
Proof.
  intros Hlit Hk Ht.
  destruct (literal_keyword_round_trip text keyword Hlit) as (segments & Hret & Hj).
  exists segments. split; [exact Hret|]. split; [|exact Hj].
  unfold highlightText in Hret.
  destruct text as [|ch text']; [congruence|]. cbn [JS.truthyStr negb] in Hret.
  rewrite (parse_literal keyword Hlit) in Hret.
  unfold split in Hret. cbn [list_ascii_of_string] in Hret.
  destruct (splitLoop _ _ _ _ _ _) as [parts|] eqn:Hparts; [|discriminate].
  apply (splitLoop_marks _ keyword Hk) in Hparts; [|lia|intros j Hj'; lia].
  destruct Hparts as (segments' & Hm & Hmarked).
  rewrite Hm in Hret. inversion Hret; subst. exact Hmarked.
Qed.

Lemma literal_keyword_marks_occurrences_witness :
  exists segments,
    highlightText "Nike and NIKE" "nike" = Returned segments /\
    marked "nike" segments /\ joined segments = "Nike and NIKE".
Proof.
  apply (literal_keyword_marks_occurrences "Nike and NIKE" "nike");
    [reflexivity | discriminate | discriminate].
Defined.

Lemma parse_leading_quantifier keyword :
  leadingQuantifier keyword = true ->
  parse ("(" ++ keyword ++ ")") = SyntaxError.
Proof.
  destruct keyword as [|c keyword]; [discriminate|]. cbn [leadingQuantifier].
  intros H. unfold parse. cbn [append list_ascii_of_string parseFrom].
  change ("("%char =? "(")%char with true. cbv iota.
  apply orb_true_iff in H as [H|H]; apply Ascii.eqb_eq in H; subst c; reflexivity.
Qed.

Lemma highlightText_leading_quantifier keyword text :
  leadingQuantifier keyword = true ->
  highlightText text keyword =
  if JS.truthyStr text then ThrewSyntaxError else Returned [].
Proof.
  intros H. unfold highlightText. destruct (JS.truthyStr text); [|reflexivity].
  cbn [negb]. rewrite parse_leading_quantifier by exact H. reflexivity.
Qed.

Lemma highlightAll_leading_quantifier keyword mentions :
  leadingQuantifier keyword = true ->
  highlightAll mentions keyword = inr SyntaxErrorThrown \/
  exists segments, highlightAll mentions keyword = inl segments.
Proof.
  intros H. induction mentions as [|m mentions IH]; cbn [highlightAll].
  - right. eexists. reflexivity.
  - rewrite highlightText_leading_quantifier by exact H.
    destruct (JS.truthyStr m); cbn [segmentsOf]; [left; reflexivity|].
    destruct IH as [->|[segments ->]]; [left; reflexivity|right; eexists; reflexivity].
Qed.

Lemma card_leading_quantifier keyword video :
  leadingQuantifier keyword = true ->
  card video keyword = inr SyntaxErrorThrown \/
  (JS.truthyStr (title video) = false /\ exists c, card video keyword = inl c).
Proof.
  intros H. unfold card. rewrite !highlightText_leading_quantifier by exact H.
  destruct (JS.truthyStr (title video)); cbn [segmentsOf]; [left; reflexivity|].
  destruct (JS.truthyStr (description video)); cbn [segmentsOf]; [left; reflexivity|].
  destruct (transcript_matches video) as [|m ms] eqn:E.
  - right. split; [reflexivity|]. eexists. reflexivity.
  - destruct (highlightAll_leading_quantifier keyword (m :: ms) H) as [->|[segs ->]].
    + left. reflexivity.
    + right. split; [reflexivity|]. eexists. reflexivity.
Qed.

Lemma cardsOf_leading_quantifier keyword results :
  leadingQuantifier keyword = true ->
  existsb (fun video => JS.truthyStr (title video)) results = true ->
  cardsOf results keyword = inr SyntaxErrorThrown.
Proof.
  intros H. induction results as [|video results IH]; [discriminate|].
  cbn [existsb cardsOf]. intros Hex.
  destruct (card_leading_quantifier keyword video H) as [->|(Ht & c & ->)];
    [reflexivity|].
  rewrite Ht in Hex. cbn [orb] in Hex. rewrite (IH Hex). reflexivity.
Qed.

(** X12.  A keyword that begins with [*] or [+] passes the blank check
    and is searched, but its pattern is no regular expression:
    [highlightText] throws on every text that is not empty, and the
    results of that search cannot be rendered once a video has a
    title. *)
Theorem leading_quantifier_keyword_breaks_the_results keyword f data :
  leadingQuantifier keyword = true ->
  existsb (fun video => JS.truthyStr (title video)) (videos data) = true ->
  let w := run initialWorld [EvSearch keyword f; EvSettle 0 (FetchOk data)] in
  App.keyword (ui w) = keyword /\ results (ui w) = videos data /\
  (forall text, text <> EmptyString ->
                highlightText text keyword = ThrewSyntaxError) /\
  view (ui w) = inr SyntaxErrorThrown.
Proof.
  intros H Hex. cbv zeta. cbn [run fold_left step].
  assert (Hk : blank keyword = false).
  { destruct keyword as [|c k]; [discriminate|]. cbn in H.
    apply orb_true_iff in H as [H|H]; apply Ascii.eqb_eq in H; subst c; reflexivity. }
  rewrite handleSearch_passes by (rewrite trim_truthy, Hk; reflexivity).
  cbn [inflight initialWorld app]. unfold settle.
  cbn [inflight nth_error removeNth ui resume handleSearchResume].
  split; [reflexivity|]. split; [reflexivity|]. split.
  - intros text Ht. rewrite highlightText_leading_quantifier by exact H.
    destruct text; [congruence|reflexivity].
  - unfold view. cbn. rewrite cardsOf_leading_quantifier; auto.
Qed.

Lemma leading_quantifier_keyword_breaks_the_results_witness :
  view (ui (run initialWorld
              [EvSearch "+1" noFilters;
               EvSettle 0 (FetchOk (mkData [sampleVideo] None 1%Z))])) =
  inr SyntaxErrorThrown.
Proof.
  apply (leading_quantifier_keyword_breaks_the_results "+1" noFilters
           (mkData [sampleVideo] None 1%Z)); reflexivity.
Defined.


(** The round trip of a keyword without parentheses, at a keyword with
    a dot. *)
Lemma paren_free_keyword_round_trip_witness :
  joined [Plain ""; Highlighted "example.com"; Plain " "; Plain "exampleXcom";
          Plain ""] = "example.com exampleXcom".
Proof.
  apply (paren_free_keyword_round_trip "example.com exampleXcom" "example.com");
    reflexivity.
Defined.

End MoreHighlighting.

Section Cards.

Import RegExp App VideoCard Render Props MoreProps.

Lemma highlightAll_literal keyword mentions :
  literal keyword = true ->
  exists all, highlightAll mentions keyword = inl all /\
              map joined all = mentions.
Proof.
  intros H. induction mentions as [|m mentions (all & Ha & Hm)].
  - exists []. split; reflexivity.
  - cbn [highlightAll].
    destruct (literal_keyword_round_trip m keyword H) as (segments & -> & Hj).
    cbn [segmentsOf]. rewrite Ha. eexists. split; [reflexivity|].
    cbn [map]. rewrite Hj, Hm. reflexivity.
Qed.

Lemma card_literal keyword video :
  literal keyword = true ->
  exists c, card video keyword = inl c /\ readsAs video c.
Proof.
  intros H. unfold card.
  destruct (literal_keyword_round_trip (title video) keyword H) as (ts & -> & Ht).
  destruct (literal_keyword_round_trip (description video) keyword H) as (ds & -> & Hd).
  cbn [segmentsOf].
  destruct (transcript_matches video) as [|m ms] eqn:E.
  - eexists. split; [reflexivity|]. unfold readsAs.
    cbn [titleSegments descriptionSegments transcriptMentions].
    repeat split; assumption.
  - destruct (highlightAll_literal keyword (m :: ms) H) as (all & -> & Hall).
    eexists. split; [reflexivity|]. unfold readsAs.
    cbn [titleSegments descriptionSegments transcriptMentions].
    rewrite E. repeat split; assumption.
Qed.

(** X13.  With a keyword of pattern characters only the render never
    throws: every video gets its card, and the segments of title,
    description and transcript mentions read those texts again. *)
Theorem literal_keyword_view_never_throws s :
  literal (keyword s) = true ->
  exists v, view s = inl v /\ Forall2 readsAs (results s) (cards v).
Proof.
  intros H. unfold view.
  assert (Hc : exists cs, cardsOf (results s) (keyword s) = inl cs /\
                          Forall2 readsAs (results s) cs).
  { induction (results s) as [|video rs (cs & Hcs & Hall)].
    - exists []. split; [reflexivity|constructor].
    - cbn [cardsOf]. destruct (card_literal (keyword s) video H) as (c & -> & Hr).
      rewrite Hcs. eexists. split; [reflexivity|]. constructor; assumption. }
  destruct Hc as (cs & -> & Hall). eexists. split; [reflexivity|exact Hall].
Qed.

Lemma literal_keyword_view_never_throws_witness :
  exists v, view (mkState "nike" [sampleVideo] false None None 7%Z noFilters) = inl v /\
            Forall2 readsAs [sampleVideo] (cards v).
Proof.
  apply (literal_keyword_view_never_throws
           (mkState "nike" [sampleVideo] false None None 7%Z noFilters)).
  reflexivity.
Defined.

End Cards.

(* ------------------------------------------------------------------ *)
(** ** View counts: further properties *)

Section MoreViewCount.

Import VideoCard Props MoreProps Float64.
Local Open Scope Z_scope.

Lemma formatViews_shown n :
  1000 <= n ->
  textOf (formatViews n) =
  (fixed1 (shownTenths n) ++ (if (1000000 <=? n)%Z then "M" else "K"))%string.
Proof.
  intros Hn. unfold formatViews, shownTenths.
  destruct (1000000 <=? n); [reflexivity|].
  destruct (1000 <=? n) eqn:E; [reflexivity|apply Z.leb_gt in E; lia].
Qed.

Lemma tenths_monotone n m g :
  0 < g -> 20 * g <= n -> n <= m -> m < 2 ^ 53 ->
  tenths (divide n (20 * g)) <= tenths (divide m (20 * g)).
Proof.
  intros Hg Hn Hnm Hm.
  destruct (Z.eq_dec n m) as [->|Hne]; [apply Z.le_refl|].
  pose proof (tenths_nearest n g Hg Hn ltac:(lia)) as Tn.
  pose proof (tenths_nearest m g Hg ltac:(lia) Hm) as Tm.
  rewrite !halfUpTenths_unit in * by exact Hg.
  assert (Hmono : (n + g) / (2 * g) <= (m + g) / (2 * g))
    by (apply Z.div_le_mono; lia).
  assert (Hn' : tenths (divide n (20 * g)) <= (n + g) / (2 * g))
    by (destruct Tn as [->|[_ ->]]; lia).
  destruct Tm as [->|[Hmid ->]]; [lia|].
  apply midway_unit in Hmid; [|exact Hg].
  pose proof (Z.div_mod m (2 * g) ltac:(lia)) as Hdm. rewrite Hmid in Hdm.
  assert (HKm : (m + g) / (2 * g) = m / (2 * g) + 1).
  { symmetry. apply Z.div_unique with (r := 0); lia. }
  assert (HKn : (n + g) / (2 * g) <= m / (2 * g)).
  { apply Z.lt_succ_r. apply Z.div_lt_upper_bound; lia. }
  lia.
Qed.

(** X14.  Within one unit, thousands or millions, more views never
    show a smaller number. *)
Theorem formatViews_never_decreases n m :
  1000 <= n -> n <= m -> m < 2 ^ 53 ->
  (1000000 <=? n) = (1000000 <=? m) ->
  let unit := if 1000000 <=? n then "M"%string else "K"%string in
  textOf (formatViews n) = (fixed1 (shownTenths n) ++ unit)%string /\
  textOf (formatViews m) = (fixed1 (shownTenths m) ++ unit)%string /\
  shownTenths n <= shownTenths m.
Proof.
  intros Hn Hnm Hm Hband unit. subst unit.
  rewrite (formatViews_shown n Hn), (formatViews_shown m ltac:(lia)), <- Hband.
  split; [reflexivity|]. split; [reflexivity|].
  unfold shownTenths. rewrite <- Hband.
  destruct (1000000 <=? n) eqn:E.
  - apply Z.leb_le in E. apply (tenths_monotone n m 50000); lia.
  - apply (tenths_monotone n m 50); lia.
Qed.

Lemma formatViews_never_decreases_witness :
  shownTenths 1500 <= shownTenths 2500.
Proof.
  apply (formatViews_never_decreases 1500 2500); [lia | lia | lia | reflexivity].
Defined.

(** X15.  The thousands run up to the last count below a million: from
    999,950 to 999,999 the card shows "1000.0K", not "1.0M". *)
Theorem formatViews_just_below_a_million n :
  999950 <= n < 1000000 ->
  textOf (formatViews n) = "1000.0K"%string.
Proof.
  intros [Hlo Hhi].
  destruct (Z.eq_dec n 999950) as [->|Hne]; [vm_compute; reflexivity|].
  rewrite formatViews_shown by lia. unfold shownTenths.
  destruct (1000000 <=? n) eqn:E; [apply Z.leb_le in E; lia|].
  pose proof (tenths_nearest n 50 ltac:(lia) ltac:(lia) ltac:(lia)) as T.
  change (20 * 50) with 1000 in T. destruct T as [->|[Hmid _]].
  - unfold halfUpTenths. change (1000 / 2) with 500.
    replace ((10 * n + 500) / 1000) with 10000; [reflexivity|].
    apply Z.div_unique with (r := 10 * n + 500 - 10000000); lia.
  - exfalso. unfold midway in Hmid.
    change (1000 / 2) with 500 in Hmid.
    pose proof (Z.div_mod (10 * n) 1000 ltac:(lia)) as Hdm. rewrite Hmid in Hdm.
    lia.
Qed.

Lemma formatViews_just_below_a_million_witness :
  textOf (formatViews 999999) = "1000.0K"%string.
Proof. apply (formatViews_just_below_a_million 999999). lia. Defined.

End MoreViewCount.
